(** * Near-Earth objects: linking, lookup, filtered query and CSV rows

    A shallow embedding of [models.py], [database.py] and [write.py].

    Python objects are mutable and shared: the database links an approach
    to its NEO by assigning [approach.neo] and by appending the very same
    approach object to [neo.approaches].  Objects therefore live in a store
    and are named by their address; collections hold addresses. *)

From Stdlib Require Import Floats.
From stdpp Require Import gmap strings list fin_maps.

Set Warnings "-inexact-float".

Open Scope string_scope.
Open Scope list_scope.

(** ** Python runtime: exceptions and outcomes *)

Inductive exn :=
  | TypeError
  | KeyError
  | OtherError (cls : string).

Inductive outcome (A : Type) :=
  | Return (x : A)
  | Raise (e : exn).
Arguments Return {A} x.
Arguments Raise {A} e.

#[global] Instance exn_eq_dec : EqDecision exn.
Proof. solve_decision. Defined.
#[global] Instance outcome_eq_dec {A} `{EqDecision A} : EqDecision (outcome A).
Proof. solve_decision. Defined.

(** Object identity. *)
Definition addr := nat.

(** Truth value of an [Optional[str]]: [None] and [''] are falsy. *)
Definition truthy (s : option string) : bool :=
  match s with
  | None => false
  | Some s => negb (String.eqb s "")
  end.

(** ** models.py *)

(** [datetime.datetime] (naive): the calendar fields. *)
Record datetime := {
  year : Z; month : Z; day : Z; hour : Z; minute : Z; second : Z
}.

Record NearEarthObject := {
  designation : string;
  name : option string;
  diameter : float;
  hazardous : bool;
  approaches : list addr
}.

Record CloseApproach := {
  _designation : string;
  time : option datetime;
  distance : float;
  velocity : float;
  neo : option addr
}.

(** [NearEarthObject()] and [CloseApproach()] with every default argument. *)
Definition NearEarthObject_default : NearEarthObject :=
  {| designation := ""; name := None; diameter := nan; hazardous := false;
     approaches := [] |}.

Definition CloseApproach_default : CloseApproach :=
  {| _designation := ""; time := None; distance := 0%float;
     velocity := 0%float; neo := None |}.

#[global] Instance NearEarthObject_inhabited : Inhabited NearEarthObject :=
  populate NearEarthObject_default.
#[global] Instance CloseApproach_inhabited : Inhabited CloseApproach :=
  populate CloseApproach_default.

(** [NearEarthObject.fullname] *)
Definition fullname (o : NearEarthObject) : string :=
  if truthy (name o)
  then designation o +:+ " (" +:+ default "" (name o) +:+ ")"
  else designation o.

(** The store: one table per class. *)
Record heap := {
  neo_objs : gmap addr NearEarthObject;
  ca_objs : gmap addr CloseApproach
}.

Definition get_neo (h : heap) (n : addr) : NearEarthObject := neo_objs h !!! n.
Definition get_ca (h : heap) (a : addr) : CloseApproach := ca_objs h !!! a.

(** [approach.neo = neo] *)
Definition assign_neo (h : heap) (a n : addr) : heap :=
  let c := get_ca h a in
  {| neo_objs := neo_objs h;
     ca_objs := <[a := {| _designation := _designation c; time := time c;
                          distance := distance c; velocity := velocity c;
                          neo := Some n |}]> (ca_objs h) |}.

(** [neo.approaches.append(approach)] *)
Definition append_approach (h : heap) (n a : addr) : heap :=
  let o := get_neo h n in
  {| neo_objs := <[n := {| designation := designation o; name := name o;
                           diameter := diameter o; hazardous := hazardous o;
                           approaches := approaches o ++ [a] |}]> (neo_objs h);
     ca_objs := ca_objs h |}.

(** ** database.py *)

Record NEODatabase := {
  _neos : list addr;
  _approaches : list addr;
  _name2neo : gmap (option string) addr;
  _des2neo : gmap string addr
}.

(** Body of the inner loop of [__init__] (lines 67-69). *)
Definition link (n : addr) (h : heap) (a : addr) : heap :=
  if decide (_designation (get_ca h a) = designation (get_neo h n))
  then append_approach (assign_neo h a n) n a
  else h.

(** Body of the outer loop of [__init__] (lines 59-69). *)
Definition init_step (st : NEODatabase * heap) (n : addr) : NEODatabase * heap :=
  let '(db, h) := st in
  let des2neo := <[designation (get_neo h n) := n]> (_des2neo db) in
  let name2neo :=
    if truthy (name (get_neo h n))
    then <[name (get_neo h n) := n]> (_name2neo db)
    else _name2neo db in
  ({| _neos := _neos db; _approaches := _approaches db;
      _name2neo := name2neo; _des2neo := des2neo |},
   foldl (link n) h (_approaches db)).

(** [NEODatabase.__init__]: the new database and the store after linking. *)
Definition __init__ (h : heap) (neos approaches : list addr)
  : NEODatabase * heap :=
  foldl init_step
        ({| _neos := neos; _approaches := approaches;
            _name2neo := ∅; _des2neo := ∅ |}, h)
        neos.

(** The precondition of the constructor: no approach has an NEO yet, no
    NEO has approaches yet, and no two NEOs of the collection share a
    designation. *)
Definition unlinked (h : heap) (ns cas : list addr) : Prop :=
  Forall (λ a, neo (get_ca h a) = None) cas ∧
  Forall (λ n, approaches (get_neo h n) = []) ns ∧
  NoDup ((λ n, designation (get_neo h n)) <$> ns).

(** Linking writes [approach.neo] and [neo.approaches] only: two stores
    agree on every other attribute of every object. *)
Definition same_attributes (h h' : heap) : Prop :=
  (∀ n, designation (get_neo h' n) = designation (get_neo h n) ∧
        name (get_neo h' n) = name (get_neo h n) ∧
        diameter (get_neo h' n) = diameter (get_neo h n) ∧
        hazardous (get_neo h' n) = hazardous (get_neo h n)) ∧
  (∀ a, _designation (get_ca h' a) = _designation (get_ca h a) ∧
        time (get_ca h' a) = time (get_ca h a) ∧
        distance (get_ca h' a) = distance (get_ca h a) ∧
        velocity (get_ca h' a) = velocity (get_ca h a)).

(** The three things the outer loop of [__init__] does, each on its own:
    the linking of every NEO of [ns] with the approaches [cas], and the two
    indexes read off a store [h]. *)
Definition link_all (cas : list addr) (h : heap) (ns : list addr) : heap :=
  foldl (λ h n, foldl (link n) h cas) h ns.

Definition index_name (h : heap) (d : gmap (option string) addr) (n : addr)
  : gmap (option string) addr :=
  if truthy (name (get_neo h n)) then <[name (get_neo h n) := n]> d else d.

Definition index_designation (h : heap) (d : gmap string addr) (n : addr)
  : gmap string addr :=
  <[designation (get_neo h n) := n]> d.

(** How often the object at [a] occurs in a sequence of objects. *)
Definition occurrences (a : addr) (l : list addr) : nat :=
  length (filter (λ x, x = a) l).

(** [d[k]] on a dict. *)
Definition getitem `{Countable K} {V} (d : gmap K V) (k : K) : outcome V :=
  match d !! k with
  | Some v => Return v
  | None => Raise KeyError
  end.

(** [NEODatabase.get_neo_by_designation] *)
Definition get_neo_by_designation (db : NEODatabase) (d : string)
  : outcome (option addr) :=
  match getitem (_des2neo db) d with
  | Return n => Return (Some n)
  | Raise KeyError => Return None
  | Raise e => Raise e
  end.

(** [NEODatabase.get_neo_by_name]; the argument may be [None] at run time. *)
Definition get_neo_by_name (db : NEODatabase) (nm : option string)
  : outcome (option addr) :=
  match getitem (_name2neo db) nm with
  | Return n => Return (Some n)
  | Raise KeyError => Return None
  | Raise e => Raise e
  end.

(** *** Effects

    A generator body, or a function that writes rows to a file, runs in a
    small effect: it emits events in order and either finishes or lets an
    exception escape.  What was emitted before an exception stays emitted. *)

Definition eff (E A : Type) : Type := list E * outcome A.

Definition ret {E A} (x : A) : eff E A := ([], Return x).
Definition emit {E} (ev : E) : eff E unit := ([ev], Return tt).
Definition lift {E A} (o : outcome A) : eff E A := ([], o).
Definition bind {E A B} (k : A -> eff E B) (m : eff E A) : eff E B :=
  match m with
  | (t, Return x) => let '(t', r) := k x in (t ++ t', r)
  | (t, Raise e) => (t, Raise e)
  end.

#[global] Instance eff_ret {E} : MRet (eff E) := @ret E.
#[global] Instance eff_bind {E} : MBind (eff E) := @bind E.

(** What a generator does that can be seen from outside. *)
Inductive event :=
  | Call (i : nat) (a : addr)   (* the [i]-th filter is applied to [a] *)
  | Yield (a : addr).           (* [yield a] *)

Abbreviation gen := (eff event).

(** [try: m except TypeError: handler] *)
Definition except_TypeError {E A} (m handler : eff E A) : eff E A :=
  match m with
  | (t, Raise TypeError) => let '(t', r) := handler in (t ++ t', r)
  | _ => m
  end.

(** The items a run has yielded, in order. *)
Fixpoint yielded (t : list event) : list addr :=
  match t with
  | [] => []
  | Yield a :: t => a :: yielded t
  | Call _ _ :: t => yielded t
  end.

(** The events of applying the filters numbered [i], ..., [i + k - 1] to
    the approach at [a], in that order. *)
Definition calls (a : addr) (i k : nat) : list event :=
  (λ j, Call j a) <$> seq i k.

(** [filters.AttributeFilter] is imported by [database.py] but is not among
    the sources.  [query] only calls a filter on an approach, so a filter is
    any callable that reads the store and answers with a boolean or raises. *)
Definition AttributeFilter : Type := heap -> addr -> outcome bool.

(** [{filter(approach) for filter in filters}], the filters being numbered
    from [i] on. *)
Fixpoint set_comprehension (h : heap) (a : addr) (i : nat)
    (filters : list AttributeFilter) : gen (gset bool) :=
  match filters with
  | [] => mret ∅
  | f :: filters =>
      emit (Call i a) ;;
      b ← lift (f h a) ;
      s ← set_comprehension h a (S i) filters ;
      mret ({[ b ]} ∪ s)
  end.

(** The builtin [all] on a set of booleans. *)
Definition all (s : gset bool) : bool := forallb id (elements s).

(** How one round of the [for] loop ends. *)
Inductive flow := Next | Stop.

(** One round of the loop of [query] (lines 123-129). *)
Definition query_step (h : heap) (filters : list AttributeFilter) (a : addr)
  : gen flow :=
  except_TypeError
    (s ← set_comprehension h a 0 filters ;
     (if all s then emit (Yield a) else mret tt) ;;
     mret Next)
    (mret Stop).

Fixpoint query_loop (h : heap) (filters : list AttributeFilter)
    (l : list addr) : gen unit :=
  match l with
  | [] => mret tt
  | a :: l =>
      c ← query_step h filters a ;
      match c with
      | Next => query_loop h filters l
      | Stop => mret tt
      end
  end.

(** A filter answers, with [True] or with [False], rather than raising. *)
Definition answers (h : heap) (a : addr) (f : AttributeFilter) : Prop :=
  ∃ b, f h a = Return b.

(** A filter answers [True]. *)
Definition accepts (h : heap) (a : addr) (f : AttributeFilter) : Prop :=
  f h a = Return true.

#[global] Instance accepts_dec h a f : Decision (accepts h a f).
Proof. unfold accepts. apply _. Defined.

(** [NEODatabase.query], run to its end. *)
Definition query (db : NEODatabase) (h : heap)
    (filters : list AttributeFilter) : gen unit :=
  query_loop h filters (_approaches db).

(** ** write.py *)

(** A value handed to [csv.writer.writerow]. *)
Inductive cell :=
  | CNone
  | CStr (s : string)
  | CFloat (x : float)
  | CBool (b : bool).

Definition of_optional_str (s : option string) : cell :=
  match s with
  | Some s => CStr s
  | None => CNone
  end.

Definition fieldnames : list string :=
  [ "datetime_utc"; "distance_au"; "velocity_km_s";
    "designation"; "name"; "diameter_km"; "potentially_hazardous" ].

(** A row read against the header: the flat record it stands for. *)
Definition record (row : list cell) : gmap string cell :=
  list_to_map (zip fieldnames row).

Section Write.

(** [helpers.datetime_to_str] is not among the sources; it may raise. *)
Variable datetime_to_str : option datetime -> outcome string.

(** [CloseApproach.time_str] *)
Definition time_str (c : CloseApproach) : outcome string :=
  datetime_to_str (time c).

(** The tuple [row] of lines 37-45. *)
Definition csv_row (h : heap) (a : addr) : outcome (list cell) :=
  let c := get_ca h a in
  match time_str c with
  | Raise e => Raise e
  | Return s =>
      Return
        [ CStr s;
          CFloat (distance c);
          CFloat (velocity c);
          CStr (_designation c);
          match neo c with
          | Some n => of_optional_str (name (get_neo h n))
          | None => CNone
          end;
          match neo c with
          | Some n => CFloat (diameter (get_neo h n))
          | None => CNone
          end;
          match neo c with
          | Some n => CBool (hazardous (get_neo h n))
          | None => CNone
          end ]
  end.

Fixpoint write_rows (h : heap) (results : list addr)
  : eff (list cell) unit :=
  match results with
  | [] => mret tt
  | a :: results =>
      row ← lift (csv_row h a) ;
      emit row ;;
      write_rows h results
  end.

(** [write_to_csv]: the rows handed to the writer, in order. *)
Definition write_to_csv (h : heap) (results : list addr)
  : eff (list cell) unit :=
  emit (CStr <$> fieldnames) ;;
  write_rows h results.

End Write.

(** ** Iterators and the result limiter *)

(** An iterator is a state together with its [__next__]; [None] stands for
    [StopIteration].  [pull next k s] calls [next] until [k] items have come
    out or the iterator has stopped, and returns the items with the state
    the iterator is left in. *)
Fixpoint pull {A St : Type} (next : St -> option (A * St)) (k : nat) (s : St)
  : list A * St :=
  match k with
  | 0 => ([], s)
  | S k =>
      match next s with
      | None => ([], s)
      | Some (x, s') => let '(l, e) := pull next k s' in (x :: l, e)
      end
  end.

(** [exhausts next s l e]: consumed to its end from [s], the iterator
    yields exactly [l] and is left in [e]. *)
Inductive exhausts {A St : Type} (next : St -> option (A * St))
  : St -> list A -> St -> Prop :=
  | exhausts_stop s :
      next s = None -> exhausts next s [] s
  | exhausts_item s x s' l e :
      next s = Some (x, s') -> exhausts next s' l e ->
      exhausts next s (x :: l) e.

(** The iterator of a list. *)
Definition list_next {A : Type} (l : list A) : option (A * list A) :=
  match l with
  | [] => None
  | x :: l => Some (x, l)
  end.

Section Limit.

Context {A St : Type}.
Variable next : St -> option (A * St).

(** Modelled from the spec: the result limiter [limit] belongs to
    filters.py, which is not among the sources.  Section 4.4: given a lazy
    sequence and a maximum count N (N = 0 or absent meaning unlimited),
    produce a lazy sequence yielding at most N items in original order,
    then stop.  With no bound the source itself is handed back; with a
    bound the result counts down and asks the source for one item per
    item it yields. *)
Inductive limited :=
  | Unlimited (s : St)
  | AtMost (k : nat) (s : St).

(** Modelled from the spec: [limit(iterator, n)] of filters.py (section
    4.4); [n] absent or [0] means no bound. *)
Definition limit (s : St) (n : option nat) : limited :=
  match n with
  | None => Unlimited s
  | Some 0 => Unlimited s
  | Some n => AtMost n s
  end.

(** Modelled from the spec: [__next__] of what [limit] returns (section
    4.4): at most the bound, in the order of the source, then stop. *)
Definition limited_next (l : limited) : option (A * limited) :=
  match l with
  | Unlimited s =>
      match next s with
      | Some (x, s') => Some (x, Unlimited s')
      | None => None
      end
  | AtMost 0 s => None
  | AtMost (S k) s =>
      match next s with
      | Some (x, s') => Some (x, AtMost k s')
      | None => None
      end
  end.

(** The state of the underlying source. *)
Definition source (l : limited) : St :=
  match l with
  | Unlimited s => s
  | AtMost _ s => s
  end.

End Limit.

(** ** models.py: objects from raw records *)

#[global] Instance outcome_ret : MRet outcome := @Return.
#[global] Instance outcome_bind : MBind outcome :=
  λ A B k m, match m with Return x => k x | Raise e => Raise e end.

Definition IndexError : exn := OtherError "IndexError".

(** [l[i]] on a list, for an index that is not negative. *)
Definition item {A : Type} (l : list A) (i : nat) : outcome A :=
  match l !! i with
  | Some x => Return x
  | None => Raise IndexError
  end.

(** [str(x)] for a field that is a string or [None]. *)
Definition py_str (x : option string) : string :=
  match x with
  | Some s => s
  | None => "None"
  end.

Section Create.

(** The builtin [float] on a string, and [helpers.cd_to_datetime], which is
    not among the sources; both may raise. *)
Variable float_of_str : string -> outcome float.
Variable cd_to_datetime : string -> outcome datetime.

(** [float(x)] for a field that is a string or [None]. *)
Definition py_float (x : option string) : outcome float :=
  match x with
  | Some s => float_of_str s
  | None => Raise TypeError
  end.

(** [NearEarthObject.__init__] (lines 52-58). *)
Definition NearEarthObject_init (d : string) (nm : option string)
    (diam : float) (hz : bool) : NearEarthObject :=
  {| designation := d; name := nm; diameter := diam; hazardous := hz;
     approaches := [] |}.

(** [NearEarthObject.create] (lines 61-67): the arguments are evaluated from
    left to right, and in [x if c else y] the condition comes first. *)
Definition NearEarthObject_create (neo_row : list (option string))
  : outcome NearEarthObject :=
  x3 ← item neo_row 3 ;
  c4 ← item neo_row 4 ;
  nm ← (if truthy c4
        then x4 ← item neo_row 4 ; mret (Some (py_str x4))
        else mret None) ;
  c15 ← item neo_row 15 ;
  diam ← (if truthy c15
          then x15 ← item neo_row 15 ; py_float x15
          else mret nan) ;
  x7 ← item neo_row 7 ;
  mret (NearEarthObject_init (py_str x3) nm diam
          (if String.eqb (py_str x7) "Y" then true else false)).

(** [CloseApproach.__init__] (lines 114-120). *)
Definition CloseApproach_init (d : string) (t : option string)
    (dist vel : float) : outcome CloseApproach :=
  tm ← (if truthy t
        then match t with
             | Some s => x ← cd_to_datetime s ; mret (Some x)
             | None => Raise TypeError
             end
        else mret None) ;
  mret {| _designation := d; time := tm; distance := dist; velocity := vel;
          neo := None |}.

(** [CloseApproach.create] (lines 123-129). *)
Definition CloseApproach_create (data : list (option string))
  : outcome CloseApproach :=
  x0 ← item data 0 ;
  c3 ← item data 3 ;
  t ← (if truthy c3
       then x3 ← item data 3 ; mret (Some (py_str x3))
       else mret None) ;
  c4 ← item data 4 ;
  dist ← (if truthy c4
          then x4 ← item data 4 ; py_float x4
          else mret 0%float) ;
  c7 ← item data 7 ;
  vel ← (if truthy c7
         then x7 ← item data 7 ; py_float x7
         else mret 0%float) ;
  CloseApproach_init (py_str x0) t dist vel.

End Create.

(** ** Vocabulary for the properties of [query] *)

#[global] Instance answers_dec h a f : Decision (answers h a f).
Proof.
  unfold answers. destruct (f h a) as [b|e].
  - left. by exists b.
  - right. by intros [b ?].
Defined.

(** A filter answers or raises [TypeError], nothing else. *)
Definition settles (h : heap) (a : addr) (f : AttributeFilter) : Prop :=
  answers h a f ∨ f h a = Raise TypeError.

#[global] Instance settles_dec h a f : Decision (settles h a f).
Proof. unfold settles. apply _. Defined.

(** ** Sample data *)

Module Sample.

Definition apophis : NearEarthObject :=
  {| designation := "2000 AB"; name := Some "Apophis";
     diameter := 0.3%float; hazardous := true; approaches := [] |}.

(** An NEO without a name, and one whose name is the empty string. *)
Definition unnamed : NearEarthObject :=
  {| designation := "2010 XY"; name := None;
     diameter := nan; hazardous := false; approaches := [] |}.
Definition blank : NearEarthObject :=
  {| designation := "2011 QQ"; name := Some "";
     diameter := nan; hazardous := false; approaches := [] |}.

(** A second NEO called Apophis. *)
Definition namesake : NearEarthObject :=
  {| designation := "2012 RR"; name := Some "Apophis";
     diameter := 1.5%float; hazardous := false; approaches := [] |}.

Definition new_year : datetime :=
  {| year := 2025; month := 1; day := 1; hour := 0; minute := 0;
     second := 0 |}.

Definition approach (d : string) : CloseApproach :=
  {| _designation := d; time := Some new_year;
     distance := 0.05%float; velocity := 10%float; neo := None |}.

(** NEOs 0..3; approaches 0 ("2000 AB"), 1 ("9999 ZZ", no such NEO),
    2 ("2000 AB" again) and 3 ("2010 XY"). *)
Definition store : heap :=
  {| neo_objs := {[ 0 := apophis; 1 := unnamed; 2 := blank; 3 := namesake ]};
     ca_objs := {[ 0 := approach "2000 AB"; 1 := approach "9999 ZZ";
                   2 := approach "2000 AB"; 3 := approach "2010 XY" ]} |}.

(** Modelled from the spec: the filter classes belong to filters.py, which
    is not among the sources.  Section 4.3: applying a filter extracts the
    value, which fails when the attribute comes from the linked NEO and
    the NEO reference is unset, then compares it with the threshold.
    Here: the hazardous flag is [value]. *)
Definition hazardous_filter (value : bool) : AttributeFilter :=
  fun h a =>
    match neo (get_ca h a) with
    | Some n => Return (eqb (hazardous (get_neo h n)) value)
    | None => Raise TypeError
    end.

(** Modelled from the spec: a filter of filters.py (section 4.3); the
    distance is at most [value]. *)
Definition max_distance_filter (value : float) : AttributeFilter :=
  fun h a => Return (PrimFloat.leb (distance (get_ca h a)) value).

(** Modelled from the spec: a filter of filters.py (section 4.3); the
    designation is [value]. *)
Definition designation_filter (value : string) : AttributeFilter :=
  fun h a => Return (String.eqb (_designation (get_ca h a)) value).

(** The database built from all four NEOs and all four approaches, and
    the store it leaves. *)
Definition db : NEODatabase := (__init__ store [0; 1; 2; 3] [0; 1; 2; 3]).1.
Definition linked : heap := (__init__ store [0; 1; 2; 3] [0; 1; 2; 3]).2.

(** A stand-in for [helpers.datetime_to_str]. *)
Definition iso_minutes (t : option datetime) : outcome string :=
  match t with
  | Some _ => Return "2025-01-01 00:00"
  | None => Raise TypeError
  end.

(** Two NEO objects with one designation, and an approach of that
    designation. *)
Definition twin : NearEarthObject :=
  {| designation := "2000 AB"; name := Some "Twin";
     diameter := nan; hazardous := false; approaches := [] |}.

Definition twins : heap :=
  {| neo_objs := {[ 0 := apophis; 1 := unnamed; 2 := twin ]};
     ca_objs := {[ 0 := approach "2000 AB" ]} |}.

(** The store with a fifth approach that has no time, and a store in which
    the approach at 0 has the NEO named by the empty string. *)
Definition undated : heap :=
  {| neo_objs := neo_objs store;
     ca_objs := <[4 := {| _designation := "2000 AB"; time := None;
                          distance := 0.05%float; velocity := 10%float;
                          neo := None |}]> (ca_objs store) |}.

Definition blank_linked : heap :=
  {| neo_objs := neo_objs store;
     ca_objs := <[0 := {| _designation := "2011 QQ"; time := Some new_year;
                          distance := 0.05%float; velocity := 10%float;
                          neo := Some 2 |}]> (ca_objs store) |}.

(** Stand-ins for the builtin [float] and for [helpers.cd_to_datetime]. *)
Definition parse_float (s : string) : outcome float :=
  if String.eqb s "1.5" then Return 1.5%float
  else if String.eqb s "0.05" then Return 0.05%float
  else if String.eqb s "10" then Return 10%float
  else Raise (OtherError "ValueError").

Definition parse_time (s : string) : outcome datetime :=
  if String.eqb s "2025-Jan-01 00:00" then Return new_year
  else Raise (OtherError "ValueError").

(** A row of the NEO file (16 fields) and a record of the approach file
    (8 fields); fields that are not read hold a dash. *)
Definition neo_row : list (option string) :=
  Some <$> [ "-"; "-"; "-"; "2012 RR"; "Apophis"; "-"; "-"; "N";
             "-"; "-"; "-"; "-"; "-"; "-"; "-"; "1.5" ].

Definition cad_record : list (option string) :=
  [ Some "2012 RR"; Some "-"; Some "-"; Some "2025-Jan-01 00:00";
    Some "0.05"; Some "-"; Some "-"; Some "10" ].

(** A store holding what [create] makes of them. *)
Definition created : heap :=
  {| neo_objs := {[ 0 := namesake ]};
     ca_objs := {[ 0 := approach "2012 RR" ]} |}.

End Sample.

(** * Properties *)

(** ** The store under linking *)

Section Store.

Implicit Types (h : heap) (n m a b : addr) (l : list addr).

Lemma get_ca_assign_neo h a n b :
  get_ca (assign_neo h a n) b =
  if decide (a = b)
  then {| _designation := _designation (get_ca h a); time := time (get_ca h a);
          distance := distance (get_ca h a); velocity := velocity (get_ca h a);
          neo := Some n |}
  else get_ca h b.
Proof.
  unfold get_ca, assign_neo; simpl. case_decide as E.
  - subst. by rewrite lookup_total_insert_eq.
  - by rewrite lookup_total_insert_ne.
Qed.

Lemma get_neo_append_approach h n a m :
  get_neo (append_approach h n a) m =
  if decide (n = m)
  then {| designation := designation (get_neo h n); name := name (get_neo h n);
          diameter := diameter (get_neo h n);
          hazardous := hazardous (get_neo h n);
          approaches := approaches (get_neo h n) ++ [a] |}
  else get_neo h m.
Proof.
  unfold get_neo, append_approach; simpl. case_decide as E.
  - subst. by rewrite lookup_total_insert_eq.
  - by rewrite lookup_total_insert_ne.
Qed.

Lemma get_neo_link n h a m :
  get_neo (link n h a) m =
  if decide (_designation (get_ca h a) = designation (get_neo h n) ∧ n = m)
  then {| designation := designation (get_neo h n); name := name (get_neo h n);
          diameter := diameter (get_neo h n);
          hazardous := hazardous (get_neo h n);
          approaches := approaches (get_neo h n) ++ [a] |}
  else get_neo h m.
Proof.
  unfold link.
  destruct (decide (_designation (get_ca h a) = designation (get_neo h n)))
    as [E|E].
  - rewrite get_neo_append_approach. destruct (decide (n = m)) as [->|Hnm].
    + by rewrite decide_True.
    + rewrite decide_False; [done|]. by intros [_ ?].
  - rewrite decide_False; [done|]. by intros [? _].
Qed.

Lemma get_ca_link n h a b :
  get_ca (link n h a) b =
  if decide (_designation (get_ca h a) = designation (get_neo h n) ∧ a = b)
  then {| _designation := _designation (get_ca h a); time := time (get_ca h a);
          distance := distance (get_ca h a); velocity := velocity (get_ca h a);
          neo := Some n |}
  else get_ca h b.
Proof.
  unfold link.
  destruct (decide (_designation (get_ca h a) = designation (get_neo h n)))
    as [E|E].
  - change (get_ca (append_approach (assign_neo h a n) n a) b)
      with (get_ca (assign_neo h a n) b).
    rewrite get_ca_assign_neo. destruct (decide (a = b)) as [->|Hab].
    + by rewrite decide_True.
    + rewrite decide_False; [done|]. by intros [_ ?].
  - rewrite decide_False; [done|]. by intros [? _].
Qed.

Lemma same_attributes_refl h : same_attributes h h.
Proof. by split. Qed.

Lemma same_attributes_trans h1 h2 h3 :
  same_attributes h1 h2 → same_attributes h2 h3 → same_attributes h1 h3.
Proof.
  intros [N1 C1] [N2 C2]. split; [intros n | intros a].
  - destruct (N1 n) as (<- & <- & <- & <-). apply N2.
  - destruct (C1 a) as (<- & <- & <- & <-). apply C2.
Qed.

Lemma same_attributes_link n h a : same_attributes h (link n h a).
Proof.
  split; [intros m | intros b].
  - rewrite get_neo_link. case_decide as E; [|done].
    destruct E as [_ <-]. done.
  - rewrite get_ca_link. case_decide as E; [|done].
    destruct E as [_ <-]. done.
Qed.

Lemma same_attributes_links n l h : same_attributes h (foldl (link n) h l).
Proof.
  revert h. induction l as [|a l IH]; intros h; simpl.
  - apply same_attributes_refl.
  - eapply same_attributes_trans; [apply same_attributes_link | apply IH].
Qed.

(** The inner loop run for the NEO at [n]. *)

Lemma links_neo_other n m l h :
  n ≠ m → get_neo (foldl (link n) h l) m = get_neo h m.
Proof.
  intros Hnm. revert h. induction l as [|a l IH]; intros h; simpl; [done|].
  rewrite IH, get_neo_link, decide_False; [done|]. by intros [_ ?].
Qed.

Lemma links_approaches n l h :
  approaches (get_neo (foldl (link n) h l) n) =
  approaches (get_neo h n) ++
  filter (λ a, _designation (get_ca h a) = designation (get_neo h n)) l.
Proof.
  revert h. induction l as [|a l IH]; intros h; simpl.
  - by rewrite app_nil_r.
  - rewrite IH. destruct (same_attributes_link n h a) as [N C].
    rewrite (list_filter_iff _
      (λ a, _designation (get_ca h a) = designation (get_neo h n))).
    2:{ intros x. destruct (N n) as (-> & _). by destruct (C x) as (-> & _). }
    rewrite get_neo_link, filter_cons.
    destruct (decide (_designation (get_ca h a) = designation (get_neo h n)))
      as [E|E].
    + rewrite !decide_True by done. simpl. by rewrite <- app_assoc.
    + rewrite !decide_False by (by intros [? _] || done). done.
Qed.

Lemma links_ca n l h a :
  neo (get_ca (foldl (link n) h l) a) =
  if decide (a ∈ l ∧ _designation (get_ca h a) = designation (get_neo h n))
  then Some n
  else neo (get_ca h a).
Proof.
  revert h. induction l as [|b l IH]; intros h; cbn [foldl].
  - rewrite decide_False; [done|]. intros [E _]. by apply elem_of_nil in E.
  - rewrite IH. destruct (same_attributes_link n h b) as [N C].
    destruct (N n) as (-> & _). destruct (C a) as (-> & _).
    rewrite get_ca_link.
    destruct (decide (_designation (get_ca h a) = designation (get_neo h n)))
      as [E|E].
    + destruct (decide (a ∈ l)) as [I|I].
      * rewrite !decide_True; [done| |done].
        split; [by apply elem_of_cons; right|done].
      * rewrite (decide_False (P := a ∈ l ∧ _)) by (by intros [? _]).
        destruct (decide (b = a)) as [->|Hba].
        -- rewrite !decide_True; [done| |done].
           split; [by apply elem_of_cons; left|done].
        -- rewrite !decide_False; [done| |].
           ++ intros [Hm _]. apply elem_of_cons in Hm as [->|Hm]; done.
           ++ by intros [_ ?].
    + rewrite (decide_False (P := a ∈ l ∧ _)) by (by intros [_ ?]).
      rewrite (decide_False (P := a ∈ b :: l ∧ _)) by (by intros [_ ?]).
      destruct (decide (b = a)) as [->|Hba].
      * rewrite decide_False; [done|]. by intros [? _].
      * rewrite decide_False; [done|]. by intros [_ ?].
Qed.

(** The outer loop. *)

Lemma same_attributes_link_all cas ns h :
  same_attributes h (link_all cas h ns).
Proof.
  revert h. induction ns as [|n ns IH]; intros h; cbn [link_all foldl].
  - apply same_attributes_refl.
  - eapply same_attributes_trans; [apply same_attributes_links | apply IH].
Qed.

Lemma link_all_app cas h l1 l2 :
  link_all cas h (l1 ++ l2) = link_all cas (link_all cas h l1) l2.
Proof. unfold link_all. by rewrite foldl_app. Qed.

Lemma link_all_cons cas h n ns :
  link_all cas h (n :: ns) = link_all cas (foldl (link n) h cas) ns.
Proof. done. Qed.

Lemma link_all_neo_other cas ns h m :
  m ∉ ns → get_neo (link_all cas h ns) m = get_neo h m.
Proof.
  revert h. induction ns as [|n ns IH]; intros h Hm; [done|].
  apply not_elem_of_cons in Hm as [Hmn Hm].
  rewrite link_all_cons, IH by done. by apply links_neo_other.
Qed.

Lemma link_all_ca_other cas ns h a :
  (∀ n, n ∈ ns → designation (get_neo h n) ≠ _designation (get_ca h a)) →
  neo (get_ca (link_all cas h ns) a) = neo (get_ca h a).
Proof.
  revert h. induction ns as [|n ns IH]; intros h Hd; [done|].
  rewrite link_all_cons.
  destruct (same_attributes_links n cas h) as [N C].
  rewrite IH.
  - rewrite links_ca, decide_False; [done|].
    intros [_ E]. apply (Hd n); [by left | done].
  - intros m Hm. destruct (N m) as (-> & _). destruct (C a) as (-> & _).
    apply Hd. by right.
Qed.

Lemma link_all_approaches cas l1 n l2 h :
  n ∉ l1 → n ∉ l2 →
  approaches (get_neo (link_all cas h (l1 ++ n :: l2)) n) =
  approaches (get_neo h n) ++
  filter (λ a, _designation (get_ca h a) = designation (get_neo h n)) cas.
Proof.
  intros H1 H2.
  rewrite link_all_app, link_all_cons, link_all_neo_other by done.
  rewrite links_approaches.
  destruct (same_attributes_link_all cas l1 h) as [N C].
  rewrite (list_filter_iff _
    (λ a, _designation (get_ca h a) = designation (get_neo h n))).
  2:{ intros x. destruct (N n) as (-> & _). by destruct (C x) as (-> & _). }
  by rewrite link_all_neo_other.
Qed.

Lemma link_all_ca cas l1 n l2 h a :
  a ∈ cas →
  _designation (get_ca h a) = designation (get_neo h n) →
  (∀ m, m ∈ l2 → designation (get_neo h m) ≠ designation (get_neo h n)) →
  neo (get_ca (link_all cas h (l1 ++ n :: l2)) a) = Some n.
Proof.
  intros Ha E H2.
  rewrite link_all_app, link_all_cons.
  destruct (same_attributes_link_all cas l1 h) as [N1 C1].
  destruct (same_attributes_links n cas (link_all cas h l1)) as [N2 C2].
  rewrite link_all_ca_other.
  - rewrite links_ca, decide_True; [done|]. split; [done|].
    destruct (N1 n) as (-> & _). by destruct (C1 a) as (-> & _).
  - intros m Hm.
    destruct (N2 m) as (-> & _). destruct (C2 a) as (-> & _).
    destruct (N1 m) as (-> & _). destruct (C1 a) as (-> & _).
    rewrite E. by apply H2.
Qed.

(** Whatever linking appends to the approaches of an NEO carries the
    designation of that NEO. *)
Lemma link_all_approaches_elem cas ns h m x :
  x ∈ approaches (get_neo (link_all cas h ns) m) →
  x ∈ approaches (get_neo h m) ∨
  _designation (get_ca h x) = designation (get_neo h m).
Proof.
  revert h. induction ns as [|n ns IH]; intros h Hx; [by left|].
  rewrite link_all_cons in Hx. apply IH in Hx.
  destruct (same_attributes_links n cas h) as [N C].
  destruct (N m) as (Em & _). destruct (C x) as (Ex & _).
  rewrite Em, Ex in Hx. destruct Hx as [Hx|Hx]; [|by right].
  destruct (decide (n = m)) as [->|Hnm].
  - rewrite links_approaches in Hx. apply elem_of_app in Hx as [Hx|Hx].
    + by left.
    + apply list_elem_of_filter in Hx as [Hx _]. by right.
  - rewrite links_neo_other in Hx by done. by left.
Qed.

(** The constructor, taken apart. *)
Lemma init_loop h0 ns db h :
  same_attributes h0 h →
  foldl init_step (db, h) ns =
  ({| _neos := _neos db; _approaches := _approaches db;
      _name2neo := foldl (index_name h0) (_name2neo db) ns;
      _des2neo := foldl (index_designation h0) (_des2neo db) ns |},
   link_all (_approaches db) h ns).
Proof.
  revert db h. induction ns as [|n ns IH]; intros db h S.
  - by destruct db.
  - cbn [foldl]. unfold init_step at 2. rewrite IH.
    + cbn [_neos _approaches _name2neo _des2neo]. rewrite link_all_cons.
      unfold index_name, index_designation.
      destruct S as [N _]. by destruct (N n) as (-> & -> & _).
    + eapply same_attributes_trans; [done | apply same_attributes_links].
Qed.

Lemma init_eq h ns cas :
  __init__ h ns cas =
  ({| _neos := ns; _approaches := cas;
      _name2neo := foldl (index_name h) ∅ ns;
      _des2neo := foldl (index_designation h) ∅ ns |},
   link_all cas h ns).
Proof. unfold __init__. by rewrite (init_loop h), ?same_attributes_refl. Qed.

End Store.

(** ** Linking (constructor) *)

Lemma occurrences_filter (P : addr → Prop) `{!∀ x, Decision (P x)} a l :
  P a → occurrences a (filter P l) = occurrences a l.
Proof.
  intros Ha. unfold occurrences. f_equal.
  rewrite list_filter_filter. apply list_filter_iff.
  intros x. split; [by intros [? _] | by intros ->].
Qed.

Lemma occurrences_not_elem a l : a ∉ l → occurrences a l = 0.
Proof.
  unfold occurrences. induction l as [|x l IH]; intros Ha; [done|].
  apply not_elem_of_cons in Ha as [Hx Ha].
  rewrite filter_cons, decide_False by done. by apply IH.
Qed.

Lemma occurrences_NoDup a l : NoDup l → a ∈ l → occurrences a l = 1.
Proof.
  induction 1 as [|x l Hx ND IH]; intros Ha.
  - by apply elem_of_nil in Ha.
  - unfold occurrences. rewrite filter_cons.
    destruct (decide (x = a)) as [->|Hne].
    + simpl. f_equal. by apply occurrences_not_elem.
    + apply elem_of_cons in Ha as [->|Ha]; [done|]. by apply IH.
Qed.

Lemma unlinked_split h l1 n l2 cas :
  unlinked h (l1 ++ n :: l2) cas →
  (n ∉ l1) ∧ (n ∉ l2) ∧
  ∀ m, m ∈ l1 ++ l2 → designation (get_neo h m) ≠ designation (get_neo h n).
Proof.
  intros (_ & _ & ND). rewrite fmap_app, fmap_cons in ND.
  apply NoDup_app in ND as (_ & D1 & ND). apply NoDup_cons in ND as [D2 _].
  assert (∀ m, m ∈ l1 ++ l2 →
            designation (get_neo h m) ≠ designation (get_neo h n)) as D.
  { intros m Hm E. apply elem_of_app in Hm as [Hm|Hm].
    - apply (D1 (designation (get_neo h m))).
      + by apply (list_elem_of_fmap_2 (λ n, designation (get_neo h n))).
      + rewrite E. by left.
    - apply D2. rewrite <- E.
      by apply (list_elem_of_fmap_2 (λ n, designation (get_neo h n))). }
  split_and!; [| |done].
  - intros Hn. apply (D n); [apply elem_of_app; by left | done].
  - intros Hn. apply (D n); [apply elem_of_app; by right | done].
Qed.

(** C2, as amended: under the precondition of the constructor, an approach
    of the collection whose designation is that of an NEO of the collection
    has that NEO as its [neo] afterwards, and occurs among the approaches of
    that NEO as often as it occurs in the approach collection: exactly once
    when the collection holds no approach object twice. *)
Theorem init_links_matching_approach h ns cas n a :
  unlinked h ns cas →
  n ∈ ns → a ∈ cas →
  _designation (get_ca h a) = designation (get_neo h n) →
  let h' := (__init__ h ns cas).2 in
  neo (get_ca h' a) = Some n ∧
  occurrences a (approaches (get_neo h' n)) = occurrences a cas ∧
  (NoDup cas → occurrences a (approaches (get_neo h' n)) = 1).
Proof.
  intros U Hn Ha E h'. subst h'. rewrite init_eq. cbn [snd].
  apply list_elem_of_split in Hn as (l1 & l2 & ->).
  destruct (unlinked_split _ _ _ _ _ U) as (N1 & N2 & D).
  destruct U as (_ & A & _).
  rewrite Forall_forall in A.
  assert (approaches (get_neo h n) = []) as An.
  { apply A, elem_of_app. right. by left. }
  assert (occurrences a (approaches (get_neo (link_all cas h (l1 ++ n :: l2)) n))
          = occurrences a cas) as O.
  { rewrite link_all_approaches, An by done. simpl.
    by apply (occurrences_filter
      (λ a, _designation (get_ca h a) = designation (get_neo h n))). }
  split_and!.
  - apply link_all_ca; [done..|]. intros m Hm. apply D, elem_of_app. by right.
  - done.
  - intros ND. rewrite O. by apply occurrences_NoDup.
Qed.

(** C5: under the precondition of the constructor, the constructor returns
    (a database and the linked store), and an approach of the collection
    whose designation is that of no NEO of the collection still has no
    [neo] and occurs among the approaches of no NEO of the collection. *)
Theorem init_leaves_unmatched_approach h ns cas a :
  unlinked h ns cas →
  a ∈ cas →
  (∀ n, n ∈ ns → designation (get_neo h n) ≠ _designation (get_ca h a)) →
  ∃ db h', __init__ h ns cas = (db, h') ∧
    neo (get_ca h' a) = None ∧
    ∀ n, n ∈ ns → a ∉ approaches (get_neo h' n).
Proof.
  intros (C & A & _) Ha D. rewrite init_eq. eexists _, _. split; [done|].
  rewrite Forall_forall in C, A. split.
  - rewrite link_all_ca_other by done. by apply C.
  - intros n Hn Hin. apply link_all_approaches_elem in Hin as [Hin|E].
    + rewrite (A n Hn) in Hin. by apply elem_of_nil in Hin.
    + by apply (D n).
Qed.

(** ** Lookup by name *)

Lemma truthy_Some k : truthy (Some k) = true ↔ k ≠ "".
Proof.
  simpl. rewrite negb_true_iff. destruct (String.eqb_spec k ""); naive_solver.
Qed.

Lemma index_name_lookup_inv h ns d k r :
  foldl (index_name h) d ns !! k = Some r →
  d !! k = Some r ∨
  (r ∈ ns ∧ name (get_neo h r) = k ∧ truthy k = true).
Proof.
  revert d. induction ns as [|n ns IH]; intros d Hl; [by left|].
  cbn [foldl] in Hl. apply IH in Hl as [Hl|(? & ? & ?)].
  - unfold index_name in Hl. destruct (truthy (name (get_neo h n))) eqn:T.
    + destruct (decide (name (get_neo h n) = k)) as [E|E].
      * rewrite E, lookup_insert_eq in Hl. injection Hl as <-.
        right. rewrite <- E. split_and!; [by left|done..].
      * rewrite lookup_insert_ne in Hl by done. by left.
    + by left.
  - right. split_and!; [by right|done..].
Qed.

Lemma index_name_lookup_other h ns d k :
  (∀ n, n ∈ ns → truthy (name (get_neo h n)) = true →
        name (get_neo h n) ≠ k) →
  foldl (index_name h) d ns !! k = d !! k.
Proof.
  revert d. induction ns as [|n ns IH]; intros d Hn; [done|].
  cbn [foldl]. rewrite IH.
  - unfold index_name. destruct (truthy (name (get_neo h n))) eqn:T; [|done].
    apply lookup_insert_ne, Hn; [by left | done].
  - intros m Hm. apply Hn. by right.
Qed.

Lemma index_name_lookup_last h l1 n l2 d k :
  name (get_neo h n) = k → truthy k = true →
  (∀ m, m ∈ l2 → name (get_neo h m) ≠ k) →
  foldl (index_name h) d (l1 ++ n :: l2) !! k = Some n.
Proof.
  intros E T H2. rewrite foldl_app. cbn [foldl].
  rewrite index_name_lookup_other by (intros m Hm _; by apply H2).
  unfold index_name. rewrite E, T. apply lookup_insert_eq.
Qed.

Lemma index_name_lookup_is_Some h ns d k :
  is_Some (d !! k) ∨
  (∃ m, m ∈ ns ∧ name (get_neo h m) = k ∧ truthy k = true) →
  is_Some (foldl (index_name h) d ns !! k).
Proof.
  revert d. induction ns as [|n ns IH]; intros d Hk.
  - destruct Hk as [Hk|(m & Hm & _)]; [done|]. by apply elem_of_nil in Hm.
  - cbn [foldl]. apply IH.
    destruct Hk as [Hk|(m & Hm & E & T)].
    + left. unfold index_name. destruct (truthy (name (get_neo h n))).
      * apply lookup_insert_is_Some'. by right.
      * exact Hk.
    + apply elem_of_cons in Hm as [->|Hm].
      * left. unfold index_name. rewrite E, T, lookup_insert_eq. by eexists.
      * right. by exists m.
Qed.

Lemma get_neo_by_name_lookup db k :
  get_neo_by_name db k = Return (_name2neo db !! k).
Proof. unfold get_neo_by_name, getitem. by destruct (_ !! _). Qed.

(** C6: on a database built by the constructor, lookup by name never
    raises; it answers [None] for [None] and for the empty string, whatever
    the names of the NEOs are; an NEO it answers with is one of the
    collection whose name is exactly the key; a non-empty key that is the
    name of some NEO of the collection is answered with such an NEO; and a
    key that is the name of no NEO is answered with [None]. *)
Theorem get_neo_by_name_exact h ns cas :
  let db := (__init__ h ns cas).1 in
  let h' := (__init__ h ns cas).2 in
  get_neo_by_name db None = Return None ∧
  get_neo_by_name db (Some "") = Return None ∧
  (∀ k, ∃ r, get_neo_by_name db k = Return r) ∧
  (∀ k n, get_neo_by_name db k = Return (Some n) →
          n ∈ ns ∧ name (get_neo h' n) = k) ∧
  (∀ k m, m ∈ ns → name (get_neo h' m) = Some k → k ≠ "" →
          ∃ n, get_neo_by_name db (Some k) = Return (Some n) ∧
               n ∈ ns ∧ name (get_neo h' n) = Some k) ∧
  (∀ k, (∀ n, n ∈ ns → name (get_neo h' n) ≠ k) →
        get_neo_by_name db k = Return None).
Proof.
  intros db h'. subst db h'. rewrite init_eq. cbn [fst snd].
  assert (∀ n, name (get_neo (link_all cas h ns) n) = name (get_neo h n)) as S.
  { intros n. by destruct (same_attributes_link_all cas ns h) as [N _];
      destruct (N n) as (_ & -> & _). }
  assert (∀ k n, foldl (index_name h) ∅ ns !! k = Some n →
                 n ∈ ns ∧ name (get_neo h n) = k) as I.
  { intros k n Hl. apply index_name_lookup_inv in Hl as [Hl|(? & ? & _)]; [|done].
    by rewrite lookup_empty in Hl. }
  split_and!.
  - rewrite get_neo_by_name_lookup. cbn [_name2neo].
    by rewrite index_name_lookup_other by (by intros n _ T E; rewrite E in T).
  - rewrite get_neo_by_name_lookup. cbn [_name2neo].
    by rewrite index_name_lookup_other by (by intros n _ T E; rewrite E in T).
  - intros k. rewrite get_neo_by_name_lookup. by eexists.
  - intros k n. rewrite get_neo_by_name_lookup, S. cbn [_name2neo].
    intros [= Hl]. by apply I.
  - intros k m Hm Em Hk. rewrite S in Em.
    destruct (index_name_lookup_is_Some h ns ∅ (Some k)) as [n Hl].
    { right. exists m. split_and!; [done..|]. by apply truthy_Some. }
    exists n. rewrite get_neo_by_name_lookup, S. cbn [_name2neo].
    rewrite Hl. split; [done|]. by apply I.
  - intros k Hk. rewrite get_neo_by_name_lookup. cbn [_name2neo].
    rewrite index_name_lookup_other, lookup_empty; [done|].
    intros n Hn _. rewrite <- S. by apply Hk.
Qed.

(** C10: under the precondition of the constructor, when NEOs of the
    collection share a non-empty name, the name index maps that name to the
    one that comes last in the collection, and lookup by that name answers
    with exactly that NEO. *)
Theorem get_neo_by_name_last h l1 n l2 cas k :
  unlinked h (l1 ++ n :: l2) cas →
  k ≠ "" →
  name (get_neo h n) = Some k →
  (∃ m, m ∈ l1 ∧ name (get_neo h m) = Some k) →
  (∀ m, m ∈ l2 → name (get_neo h m) ≠ Some k) →
  let db := (__init__ h (l1 ++ n :: l2) cas).1 in
  _name2neo db !! Some k = Some n ∧
  get_neo_by_name db (Some k) = Return (Some n).
Proof.
  intros _ Hk E _ H2 db. subst db.
  rewrite get_neo_by_name_lookup, init_eq. cbn [fst _name2neo].
  rewrite (index_name_lookup_last h l1 n l2 ∅ (Some k)); [done..| |done].
  by apply truthy_Some.
Qed.

(** ** Query *)

Section Query.

Implicit Types (h : heap) (a : addr) (fs : list AttributeFilter)
  (l pre post : list addr) (t : list event).

Lemma bind_Return {E A B} (k : A → eff E B) (t : list E) (x : A) :
  ((t, Return x) : eff E A) ≫= k = (t ++ (k x).1, (k x).2).
Proof. unfold mbind, eff_bind, bind. by destruct (k x). Qed.

Lemma bind_Raise {E A B} (k : A → eff E B) (t : list E) (e : exn) :
  ((t, Raise e) : eff E A) ≫= k = (t, Raise e).
Proof. done. Qed.

Lemma yielded_app t1 t2 : yielded (t1 ++ t2) = yielded t1 ++ yielded t2.
Proof.
  induction t1 as [|[i a|a] t1 IH]; simpl; [done..|]. by rewrite IH.
Qed.

Lemma yielded_calls a i k : yielded (calls a i k) = [].
Proof. unfold calls. revert i. induction k as [|k IH]; intros i; simpl; auto. Qed.

Lemma calls_S a i k : calls a i (S k) = Call i a :: calls a (S i) k.
Proof. done. Qed.

Lemma calls_snoc a i k : calls a i (S k) = calls a i k ++ [Call (i + k) a].
Proof. unfold calls. by rewrite seq_S, fmap_app. Qed.

(** [all] is the conjunction. *)
Lemma all_true (s : gset bool) : all s = true ↔ false ∉ s.
Proof.
  unfold all. rewrite <- Is_true_true, forallb_True, Forall_forall.
  split.
  - intros Hs Hf. by apply (Hs false), elem_of_elements.
  - intros Hf [] Hx; [done|]. by apply elem_of_elements in Hx.
Qed.

Lemma set_comprehension_answers h a fs i :
  Forall (answers h a) fs →
  ∃ s, set_comprehension h a i fs = (calls a i (length fs), Return s) ∧
       (all s = true ↔ Forall (accepts h a) fs).
Proof.
  intros Hfs. revert i. induction Hfs as [|f fs [b Hb] _ IH]; intros i.
  - exists ∅. split; [done|]. rewrite all_true. split; [done|set_solver].
  - destruct (IH (S i)) as (s & Hs & Hall).
    exists ({[b]} ∪ s). split.
    + cbn [set_comprehension]. unfold emit, lift. rewrite Hb, Hs.
      by rewrite !bind_Return, app_nil_r.
    + rewrite Forall_cons, <- Hall, !all_true. unfold accepts. rewrite Hb.
      rewrite not_elem_of_union, not_elem_of_singleton.
      destruct b; split; intros [H1 H2]; (split; [|done]); congruence.
Qed.

Lemma set_comprehension_raises h a fs1 f fs2 i e :
  Forall (answers h a) fs1 → f h a = Raise e →
  set_comprehension h a i (fs1 ++ f :: fs2) =
  (calls a i (S (length fs1)), Raise e).
Proof.
  intros Hfs He. revert i. induction Hfs as [|g fs1 [b Hb] _ IH]; intros i.
  - cbn [set_comprehension app]. unfold emit, lift. rewrite He.
    by rewrite !bind_Return.
  - cbn [set_comprehension app]. unfold emit, lift. rewrite Hb, IH.
    by rewrite !bind_Return.
Qed.

(** One round of the loop. *)

Lemma query_step_answers h fs a :
  Forall (answers h a) fs →
  query_step h fs a =
  (calls a 0 (length fs) ++
     (if decide (Forall (accepts h a) fs) then [Yield a] else []),
   Return Next).
Proof.
  intros Hfs. unfold query_step.
  destruct (set_comprehension_answers h a fs 0 Hfs) as (s & -> & Hall).
  rewrite bind_Return. destruct (all s) eqn:Hs.
  - rewrite decide_True by (by apply Hall). done.
  - rewrite decide_False; [done|]. intros HF. apply Hall in HF. congruence.
Qed.

Lemma query_step_TypeError h fs1 f fs2 a :
  Forall (answers h a) fs1 → f h a = Raise TypeError →
  query_step h (fs1 ++ f :: fs2) a =
  (calls a 0 (S (length fs1)), Return Stop).
Proof.
  intros Hfs He. unfold query_step.
  rewrite (set_comprehension_raises h a fs1 f fs2 0 TypeError) by done.
  rewrite bind_Raise. cbn [except_TypeError mret eff_ret ret].
  by rewrite app_nil_r.
Qed.

Lemma set_comprehension_yields_nothing h a fs i :
  yielded (set_comprehension h a i fs).1 = [].
Proof.
  revert i. induction fs as [|f fs IH]; intros i; [done|].
  cbn [set_comprehension]. unfold emit, lift. rewrite bind_Return.
  destruct (f h a) as [b|e]; [|done].
  rewrite bind_Return. specialize (IH (S i)).
  destruct (set_comprehension h a (S i) fs) as [t [s|e]]; simpl in *.
  - by rewrite app_nil_r.
  - done.
Qed.

(** A round yields its approach or nothing. *)
Lemma query_step_yields h fs a :
  yielded (query_step h fs a).1 = [a] ∨ yielded (query_step h fs a).1 = [].
Proof.
  unfold query_step.
  pose proof (set_comprehension_yields_nothing h a fs 0) as Y.
  destruct (set_comprehension h a 0 fs) as [t [s|e]]; cbn [fst] in Y.
  - rewrite bind_Return. destruct (all s); simpl.
    + left. by rewrite !yielded_app, Y.
    + right. by rewrite !yielded_app, Y.
  - right. rewrite bind_Raise. destruct e; simpl; [|done..].
    by rewrite yielded_app, Y.
Qed.

(** The loop. *)

Lemma query_loop_cons h fs a l :
  query_loop h fs (a :: l) =
  match query_step h fs a with
  | (t, Return Next) => (t ++ (query_loop h fs l).1, (query_loop h fs l).2)
  | (t, Return Stop) => (t, Return tt)
  | (t, Raise e) => (t, Raise e)
  end.
Proof.
  cbn [query_loop]. destruct (query_step h fs a) as [t [[]|e]].
  - by rewrite bind_Return.
  - rewrite bind_Return. simpl. by rewrite app_nil_r.
  - done.
Qed.

Lemma query_loop_sublist h fs l : yielded (query_loop h fs l).1 `sublist_of` l.
Proof.
  induction l as [|a l IH]; [done|].
  rewrite query_loop_cons.
  pose proof (query_step_yields h fs a) as Y.
  destruct (query_step h fs a) as [t [[]|e]]; cbn [fst] in *.
  - rewrite yielded_app. destruct Y as [-> | ->]; simpl.
    + by apply sublist_skip.
    + by apply sublist_cons.
  - destruct Y as [-> | ->].
    + apply sublist_skip, sublist_nil_l.
    + apply sublist_nil_l.
  - destruct Y as [-> | ->].
    + apply sublist_skip, sublist_nil_l.
    + apply sublist_nil_l.
Qed.

(** Rounds in which no filter raises run through. *)
Lemma query_loop_app h fs pre l :
  Forall (λ b, Forall (answers h b) fs) pre →
  query_loop h fs (pre ++ l) =
  ((query_loop h fs pre).1 ++ (query_loop h fs l).1, (query_loop h fs l).2).
Proof.
  induction 1 as [|b pre Hb _ IH].
  - cbn [app query_loop fst mret eff_ret ret]. by destruct (query_loop h fs l).
  - cbn [app]. rewrite !query_loop_cons, query_step_answers by done.
    rewrite IH. cbn [fst snd]. by rewrite !app_assoc.
Qed.

Lemma query_loop_answers_end h fs pre :
  Forall (λ b, Forall (answers h b) fs) pre →
  (query_loop h fs pre).2 = Return tt.
Proof.
  induction 1 as [|b pre Hb _ IH]; [done|].
  by rewrite query_loop_cons, query_step_answers.
Qed.

(** A round that ends the stream hides whatever follows it. *)
Lemma query_loop_cut h fs pre a post t :
  query_step h fs a = (t, Return Stop) → yielded t = [] →
  yielded (query_loop h fs (pre ++ a :: post)).1 =
    yielded (query_loop h fs pre).1 ∧
  (query_loop h fs (pre ++ a :: post)).2 = (query_loop h fs pre).2.
Proof.
  intros Hs Ht. induction pre as [|b pre [IH1 IH2]].
  - cbn [app]. by rewrite query_loop_cons, Hs.
  - cbn [app]. rewrite !query_loop_cons.
    destruct (query_step h fs b) as [tb [[]|e]]; cbn [fst snd]; [|done..].
    by rewrite !yielded_app, IH1, IH2.
Qed.

Lemma query_loop_no_filters h l : query_loop h [] l = (Yield <$> l, Return tt).
Proof.
  induction l as [|a l IH]; [done|].
  rewrite query_loop_cons, query_step_answers by done.
  rewrite decide_True by done. by rewrite IH.
Qed.

Lemma yielded_Yield l : yielded (Yield <$> l) = l.
Proof. induction l as [|a l IH]; [done|]. rewrite fmap_cons. simpl. by f_equal. Qed.

Lemma query_loop_all_accept h fs l :
  Forall (λ a, Forall (accepts h a) fs) l →
  yielded (query_loop h fs l).1 = l ∧ (query_loop h fs l).2 = Return tt.
Proof.
  induction 1 as [|a l Ha _ [IH1 IH2]]; [done|].
  rewrite query_loop_cons, query_step_answers.
  - rewrite decide_True by done. cbn [fst snd].
    by rewrite !yielded_app, yielded_calls, IH1, IH2.
  - eapply Forall_impl; [done|]. intros f Hf. by exists true.
Qed.

End Query.

(** C1: when, on the approach at [a], a filter raises [TypeError] (the
    filters before it having answered), the stream of [query] is the stream
    of the same database with its collection cut just before [a]: it ends the
    same way, and every item it yields comes from before [a], whatever the
    approaches after [a] are and whatever the filters would say of them. *)
Theorem query_stops_at_TypeError db db' h pre a post fs1 f fs2 :
  _approaches db = pre ++ a :: post →
  _approaches db' = pre →
  Forall (answers h a) fs1 →
  f h a = Raise TypeError →
  yielded (query db h (fs1 ++ f :: fs2)).1 =
    yielded (query db' h (fs1 ++ f :: fs2)).1 ∧
  (query db h (fs1 ++ f :: fs2)).2 = (query db' h (fs1 ++ f :: fs2)).2 ∧
  yielded (query db h (fs1 ++ f :: fs2)).1 `sublist_of` pre.
Proof.
  intros E E' Hfs Hf. unfold query. rewrite E, E'.
  destruct (query_loop_cut h (fs1 ++ f :: fs2) pre a post
              (calls a 0 (S (length fs1)))) as [Y R].
  - by apply query_step_TypeError.
  - apply yielded_calls.
  - rewrite Y, R. split_and!; [done..|]. apply query_loop_sublist.
Qed.

(** C3: on a database built by the constructor, [query] without filters
    yields the approach collection the constructor was given, item by item
    in its order, and then ends normally. *)
Theorem query_no_filters h ns cas :
  let db := (__init__ h ns cas).1 in
  let h' := (__init__ h ns cas).2 in
  yielded (query db h' []).1 = cas ∧ (query db h' []).2 = Return tt.
Proof.
  intros db h'. subst db h'. rewrite init_eq. unfold query. cbn [fst snd _approaches].
  rewrite query_loop_no_filters. cbn [fst snd].
  split; [apply yielded_Yield | done].
Qed.

(** C7: on a database built by the constructor, when every filter answers
    [True] on every approach of the collection, [query] with these filters
    yields the same sequence as [query] without filters and ends the same
    way. *)
Theorem query_all_accepting h ns cas fs :
  let db := (__init__ h ns cas).1 in
  let h' := (__init__ h ns cas).2 in
  Forall (λ a, Forall (accepts h' a) fs) cas →
  yielded (query db h' fs).1 = yielded (query db h' []).1 ∧
  (query db h' fs).2 = (query db h' []).2.
Proof.
  intros db h'. subst db h'. rewrite init_eq. unfold query. cbn [fst snd _approaches].
  intros Hacc. destruct (query_loop_all_accept _ _ _ Hacc) as [-> ->].
  rewrite query_loop_no_filters. cbn [fst snd].
  split; [by rewrite yielded_Yield | done].
Qed.

(** C9: let the approach at [a] be reached by the loop of [query] (no filter
    raises on the approaches before it).  If no filter raises on [a], every
    filter is applied to it, in order, before the approach is yielded or
    passed over: there is no short cut after a filter that answers [False].
    And if a filter raises [TypeError] on [a] after the filters before it
    have answered, be it with [False], that filter has been applied and the
    stream ends there. *)
Theorem query_applies_every_filter db h fs pre a post :
  _approaches db = pre ++ a :: post →
  Forall (λ b, Forall (answers h b) fs) pre →
  (Forall (answers h a) fs →
   (query db h fs).1 =
     (query_loop h fs pre).1 ++ calls a 0 (length fs) ++
     (if decide (Forall (accepts h a) fs) then [Yield a] else []) ++
     (query_loop h fs post).1) ∧
  (∀ fs1 f fs2,
     fs = fs1 ++ f :: fs2 →
     Forall (answers h a) fs1 → f h a = Raise TypeError →
     query db h fs =
       ((query_loop h fs pre).1 ++ calls a 0 (S (length fs1)), Return tt)).
Proof.
  intros E Hpre. unfold query. rewrite E, query_loop_app by done. split.
  - intros Ha. rewrite query_loop_cons, query_step_answers by done.
    cbn [fst]. by rewrite <- !app_assoc.
  - intros fs1 f fs2 -> Hfs Hf.
    by rewrite query_loop_cons, query_step_TypeError.
Qed.

(** ** CSV rows *)

Lemma record_fields c0 c1 c2 c3 c4 c5 c6 :
  let r := record [c0; c1; c2; c3; c4; c5; c6] in
  dom r = list_to_set fieldnames ∧
  r !! "datetime_utc" = Some c0 ∧
  r !! "distance_au" = Some c1 ∧
  r !! "velocity_km_s" = Some c2 ∧
  r !! "designation" = Some c3 ∧
  r !! "name" = Some c4 ∧
  r !! "diameter_km" = Some c5 ∧
  r !! "potentially_hazardous" = Some c6.
Proof.
  intros r. subst r. unfold record, fieldnames. cbn [zip zip_with list_to_map foldr uncurry fst snd].
  split_and!.
  - rewrite !dom_insert_L, dom_empty_L. cbn [list_to_set foldr]. done.
  - by simplify_map_eq.
  - by simplify_map_eq.
  - by simplify_map_eq.
  - by simplify_map_eq.
  - by simplify_map_eq.
  - by simplify_map_eq.
  - by simplify_map_eq.
Qed.

Section WriteProperties.

Variable datetime_to_str : option datetime → outcome string.

(** What a row says of its approach. *)
Lemma csv_row_record h a s :
  time_str datetime_to_str (get_ca h a) = Return s →
  ∃ row,
    csv_row datetime_to_str h a = Return row ∧
    (λ a row,
    dom (record row) = list_to_set fieldnames ∧
    (∃ s, time_str datetime_to_str (get_ca h a) = Return s ∧
          record row !! "datetime_utc" = Some (CStr s)) ∧
    record row !! "distance_au" = Some (CFloat (distance (get_ca h a))) ∧
    record row !! "velocity_km_s" = Some (CFloat (velocity (get_ca h a))) ∧
    record row !! "designation" = Some (CStr (_designation (get_ca h a))) ∧
    record row !! "name" =
      Some (match neo (get_ca h a) with
            | Some n => of_optional_str (name (get_neo h n))
            | None => CNone
            end) ∧
    record row !! "diameter_km" =
      Some (match neo (get_ca h a) with
            | Some n => CFloat (diameter (get_neo h n))
            | None => CNone
            end) ∧
    record row !! "potentially_hazardous" =
      Some (match neo (get_ca h a) with
            | Some n => CBool (hazardous (get_neo h n))
            | None => CNone
            end) ∧
    (record row !! "name" = Some CNone ↔
       neo (get_ca h a) = None ∨
       ∃ n, neo (get_ca h a) = Some n ∧ name (get_neo h n) = None) ∧
    (record row !! "diameter_km" = Some CNone ↔ neo (get_ca h a) = None) ∧
    (record row !! "potentially_hazardous" = Some CNone ↔
       neo (get_ca h a) = None)) a row.
Proof.
  intros Hs. unfold csv_row. rewrite Hs. eexists. split; [done|].
  cbv beta.
  match goal with
  | |- context [record [?c0; ?c1; ?c2; ?c3; ?c4; ?c5; ?c6]] =>
      destruct (record_fields c0 c1 c2 c3 c4 c5 c6)
        as (-> & -> & -> & -> & -> & -> & -> & ->)
  end.
  split_and!; [done|by exists s|done..| | |].
  - destruct (neo (get_ca h a)) as [n|]; [|by split; [left|]].
    destruct (name (get_neo h n)) as [k|] eqn:Ek; simpl.
    + split; [done|]. intros [|(m & [= <-] & ?)]; congruence.
    + split; [|done]. intros _. right. by exists n.
  - by destruct (neo (get_ca h a)).
  - by destruct (neo (get_ca h a)).
Qed.

(** The rows [write_rows] writes belong, one by one, to the approaches of
    the stream up to the first whose time cannot be formatted. *)
Lemma write_rows_described h results :
  ∃ rows r,
    write_rows datetime_to_str h results = (rows, r) ∧
    Forall2 (λ a row,
      dom (record row) = list_to_set fieldnames ∧
      (∃ s, time_str datetime_to_str (get_ca h a) = Return s ∧
            record row !! "datetime_utc" = Some (CStr s)) ∧
      record row !! "distance_au" = Some (CFloat (distance (get_ca h a))) ∧
      record row !! "velocity_km_s" = Some (CFloat (velocity (get_ca h a))) ∧
      record row !! "designation" = Some (CStr (_designation (get_ca h a))) ∧
      record row !! "name" =
        Some (match neo (get_ca h a) with
              | Some n => of_optional_str (name (get_neo h n))
              | None => CNone
              end) ∧
      record row !! "diameter_km" =
        Some (match neo (get_ca h a) with
              | Some n => CFloat (diameter (get_neo h n))
              | None => CNone
              end) ∧
      record row !! "potentially_hazardous" =
        Some (match neo (get_ca h a) with
              | Some n => CBool (hazardous (get_neo h n))
              | None => CNone
              end) ∧
      (record row !! "name" = Some CNone ↔
         neo (get_ca h a) = None ∨
         ∃ n, neo (get_ca h a) = Some n ∧ name (get_neo h n) = None) ∧
      (record row !! "diameter_km" = Some CNone ↔ neo (get_ca h a) = None) ∧
      (record row !! "potentially_hazardous" = Some CNone ↔
         neo (get_ca h a) = None))
      (take (length rows) results) rows ∧
    match r with
    | Return _ => length rows = length results
    | Raise e =>
        ∃ a, results !! length rows = Some a ∧
             time_str datetime_to_str (get_ca h a) = Raise e
    end.
Proof.
  induction results as [|a results (rows & r & Hw & Hrows & Hr)].
  - exists [], (Return tt). by split_and!.
  - destruct (time_str datetime_to_str (get_ca h a)) as [s|e] eqn:Ht.
    + destruct (csv_row_record h a s Ht) as (row & Hrow & Hspec).
      exists (row :: rows), r.
      cbn [write_rows]. unfold lift, emit. rewrite Hrow, Hw.
      rewrite !bind_Return. cbn [fst snd app length take].
      split_and!; [done|by constructor|].
      destruct r as [[]|e]; [by rewrite Hr | done].
    + exists [], (Raise e).
      cbn [write_rows]. unfold lift, csv_row. rewrite Ht.
      split_and!; [done|by constructor|]. by exists a.
Qed.

(** C4, as amended: [write_to_csv] writes the header and then, in the order
    of the stream, one row for each approach up to the first whose time
    cannot be formatted (for every approach when there is none); there it
    stops with the error of the formatter.  Read against the header, each
    row written has exactly the seven fields; [datetime_utc],
    [distance_au], [velocity_km_s] and [designation] are those of its
    approach; [name], [diameter_km] and [potentially_hazardous] are those of
    the NEO of the approach, and null when it has none.  So [diameter_km]
    and [potentially_hazardous] are null exactly when the approach has no
    NEO, and [name] is null exactly when the approach has no NEO or its NEO
    has [None] for a name (a name that is the empty string is written as
    the empty string). *)
Theorem write_to_csv_rows h results :
  ∃ rows r,
    write_to_csv datetime_to_str h results =
      ((CStr <$> fieldnames) :: rows, r) ∧
    Forall2 (λ a row,
      dom (record row) = list_to_set fieldnames ∧
      (∃ s, time_str datetime_to_str (get_ca h a) = Return s ∧
            record row !! "datetime_utc" = Some (CStr s)) ∧
      record row !! "distance_au" = Some (CFloat (distance (get_ca h a))) ∧
      record row !! "velocity_km_s" = Some (CFloat (velocity (get_ca h a))) ∧
      record row !! "designation" = Some (CStr (_designation (get_ca h a))) ∧
      record row !! "name" =
        Some (match neo (get_ca h a) with
              | Some n => of_optional_str (name (get_neo h n))
              | None => CNone
              end) ∧
      record row !! "diameter_km" =
        Some (match neo (get_ca h a) with
              | Some n => CFloat (diameter (get_neo h n))
              | None => CNone
              end) ∧
      record row !! "potentially_hazardous" =
        Some (match neo (get_ca h a) with
              | Some n => CBool (hazardous (get_neo h n))
              | None => CNone
              end) ∧
      (record row !! "name" = Some CNone ↔
         neo (get_ca h a) = None ∨
         ∃ n, neo (get_ca h a) = Some n ∧ name (get_neo h n) = None) ∧
      (record row !! "diameter_km" = Some CNone ↔ neo (get_ca h a) = None) ∧
      (record row !! "potentially_hazardous" = Some CNone ↔
         neo (get_ca h a) = None))
      (take (length rows) results) rows ∧
    match r with
    | Return _ => length rows = length results
    | Raise e =>
        ∃ a, results !! length rows = Some a ∧
             time_str datetime_to_str (get_ca h a) = Raise e
    end.
Proof.
  destruct (write_rows_described h results) as (rows & r & Hw & Hrows & Hr).
  exists rows, r. split; [|done].
  unfold write_to_csv, emit. by rewrite bind_Return, Hw.
Qed.

End WriteProperties.

(** ** The result limiter *)

Section LimitProperties.

Lemma pull_S {B T : Type} (nx : T → option (B * T)) k s :
  pull nx (S k) s =
  match nx s with
  | None => ([], s)
  | Some (x, s') => (x :: (pull nx k s').1, (pull nx k s').2)
  end.
Proof.
  cbn [pull]. destruct (nx s) as [[x s']|]; [|done].
  by destruct (pull nx k s').
Qed.

Context {A St : Type}.
Variable next : St → option (A * St).

(** Asked for [j] items, a bounded limiter asks its source for as many,
    but for no more than its bound; what it is left with is the source as
    those requests left it. *)
Lemma pull_AtMost j n s :
  pull (limited_next next) j (AtMost n s) =
  ((pull next (j `min` n) s).1,
   AtMost (n - length (pull next (j `min` n) s).1)
          (pull next (j `min` n) s).2).
Proof.
  revert n s. induction j as [|j IH]; intros n s.
  - cbn. by rewrite Nat.sub_0_r.
  - destruct n as [|n]; [done|].
    rewrite <- Nat.succ_min_distr, !pull_S. cbn [limited_next].
    destruct (next s) as [[x s']|]; [|by cbn].
    rewrite IH. by cbn.
Qed.

Lemma pull_Unlimited j s :
  pull (limited_next next) j (Unlimited s) =
  ((pull next j s).1, Unlimited (pull next j s).2).
Proof.
  revert s. induction j as [|j IH]; intros s; [done|].
  rewrite !pull_S. cbn [limited_next].
  destruct (next s) as [[x s']|]; [|by cbn]. rewrite IH. by cbn.
Qed.

Lemma exhausts_pull s l e k :
  exhausts next s l e →
  (pull next k s).1 = take k l ∧
  ((length l ≤ k)%nat → (pull next k s).2 = e).
Proof.
  intros H. revert k. induction H as [s Hs|s x s' l e Hs _ IH]; intros k.
  - destruct k as [|k]; [done|]. by rewrite pull_S, Hs.
  - destruct k as [|k].
    + split; [done|]. cbn. lia.
    + rewrite pull_S, Hs. cbn [fst snd take length].
      destruct (IH k) as [-> IH2]. split; [done|]. intros. apply IH2. lia.
Qed.

Lemma exhausts_Unlimited s l e :
  exhausts next s l e →
  exhausts (limited_next next) (Unlimited s) l (Unlimited e).
Proof.
  induction 1 as [s Hs|s x s' l e Hs _ IH].
  - apply exhausts_stop. cbn. by rewrite Hs.
  - eapply exhausts_item; [|done]. cbn. by rewrite Hs.
Qed.

Lemma exhausts_AtMost s l e n :
  exhausts next s l e →
  exhausts (limited_next next) (AtMost n s) (take n l)
           (AtMost (n - length l) (pull next n s).2).
Proof.
  intros H. revert n. induction H as [s Hs|s x s' l e Hs _ IH]; intros n.
  - rewrite take_nil. cbn [length]. rewrite Nat.sub_0_r.
    destruct n as [|n].
    + by apply exhausts_stop.
    + rewrite pull_S, Hs. apply exhausts_stop. cbn. by rewrite Hs.
  - destruct n as [|n].
    + by apply exhausts_stop.
    + rewrite pull_S, Hs. cbn [take length snd Nat.sub].
      eapply exhausts_item; [|apply IH]. cbn. by rewrite Hs.
Qed.

(** C8: let the source, consumed from [s], yield exactly [l].
    Without a bound ([None] or [0]) the limiter is the source itself and
    yields [l].  With a bound [n > 0] it yields the first [n] items of [l],
    that is [min n (length l)] items in their order, and leaves the source
    where that many requests leave it.  At any moment, having been asked
    for [j] items, it has asked the source for [min j n] items: it neither
    reads ahead nor keeps items back. *)
Theorem limit_yields_at_most s l e :
  exhausts next s l e →
  (∀ n, n = None ∨ n = Some 0 →
     limit s n = Unlimited s ∧
     exhausts (limited_next next) (limit s n) l (Unlimited e)) ∧
  (∀ n, (0 < n)%nat →
     ∃ e',
       exhausts (limited_next next) (limit s (Some n)) (take n l) e' ∧
       length (take n l) = n `min` length l ∧
       source e' = (pull next (length (take n l)) s).2) ∧
  (∀ n j, (0 < n)%nat →
     pull (limited_next next) j (limit s (Some n)) =
     (take (j `min` n) l,
      AtMost (n - length (take (j `min` n) l))
             (pull next (j `min` n) s).2)).
Proof.
  intros H. split_and!.
  - intros n [-> | ->]; (split; [done|]); by apply exhausts_Unlimited.
  - intros n Hn. destruct n as [|n]; [lia|]. cbn [limit].
    eexists. split; [by apply (exhausts_AtMost s l e)|]. split.
    + apply length_take.
    + cbn [source]. rewrite length_take.
      destruct (decide (S n ≤ length l)%nat) as [Hl|Hl].
      * by rewrite Nat.min_l.
      * rewrite Nat.min_r by lia.
        destruct (exhausts_pull s l e (S n) H) as [_ E1].
        destruct (exhausts_pull s l e (length l) H) as [_ E2].
        rewrite E1, E2 by lia. done.
  - intros n j Hn. destruct n as [|n]; [lia|]. cbn [limit].
    rewrite pull_AtMost.
    by destruct (exhausts_pull s l e (j `min` S n) H) as [-> _].
Qed.

End LimitProperties.

(** * The properties on the sample data *)

(** The first scenario of the specification: one NEO and one approach of
    it. *)
Example scenario_one_neo_one_approach :
  let s := __init__ Sample.store [0] [0] in
  get_neo_by_designation s.1 "2000 AB" = Return (Some 0) ∧
  get_neo_by_name s.1 (Some "Apophis") = Return (Some 0) ∧
  approaches (get_neo s.2 0) = [0] ∧
  neo (get_ca s.2 0) = Some 0.
Proof. split_and!; by vm_compute. Qed.

(** The second scenario: an approach without NEO under a filter on the
    hazardous flag.  The stream ends at that approach: when it comes first
    nothing is yielded; when the approach of the NEO comes first, that one
    is yielded and the stream ends after it, leaving out a later approach
    the filter accepts. *)
Example scenario_unlinked_approach :
  (let s := __init__ Sample.store [0] [1; 0] in
   query s.1 s.2 [Sample.hazardous_filter true] = ([Call 0 1], Return tt)) ∧
  (let s := __init__ Sample.store [0] [0; 1; 2] in
   query s.1 s.2 [Sample.hazardous_filter true] =
     ([Call 0 0; Yield 0; Call 0 1], Return tt) ∧
   Sample.hazardous_filter true s.2 2 = Return true).
Proof. split_and!; by vm_compute. Qed.

Lemma query_stops_at_TypeError_witness :
  let db' := {| _neos := [0; 1; 2; 3]; _approaches := [0];
                _name2neo := ∅; _des2neo := ∅ |} in
  let fs := [] ++ Sample.hazardous_filter true :: [] in
  yielded (query Sample.db Sample.linked fs).1 =
    yielded (query db' Sample.linked fs).1 ∧
  (query Sample.db Sample.linked fs).2 = (query db' Sample.linked fs).2 ∧
  yielded (query Sample.db Sample.linked fs).1 `sublist_of` [0].
Proof.
  intros db' fs.
  apply (query_stops_at_TypeError Sample.db db' Sample.linked
           [0] 1 [2; 3] [] (Sample.hazardous_filter true) []).
  - vm_compute. reflexivity.
  - reflexivity.
  - constructor.
  - vm_compute. reflexivity.
Defined.

Lemma init_links_matching_approach_witness :
  neo (get_ca (__init__ Sample.store [0; 1; 2; 3] [0; 1; 2; 3]).2 2) = Some 0 ∧
  occurrences 2
    (approaches (get_neo (__init__ Sample.store [0; 1; 2; 3] [0; 1; 2; 3]).2 0))
  = occurrences 2 [0; 1; 2; 3] ∧
  (NoDup [0; 1; 2; 3] →
   occurrences 2
     (approaches (get_neo (__init__ Sample.store [0; 1; 2; 3] [0; 1; 2; 3]).2 0))
   = 1).
Proof.
  apply (init_links_matching_approach Sample.store [0; 1; 2; 3] [0; 1; 2; 3] 0 2).
  - unfold unlinked. split_and!; compute_done.
  - compute_done.
  - compute_done.
  - reflexivity.
Defined.

(** C2 as stated fails when the approach collection holds the same approach
    object twice: the precondition holds, the approach at 0 carries the
    designation of the NEO at 0, and after the constructor it occurs twice
    among the approaches of that NEO. *)
Lemma approach_listed_twice :
  unlinked Sample.store [0] [0; 0] ∧
  0 ∈ [0] ∧ 0 ∈ [0; 0] ∧
  _designation (get_ca Sample.store 0) = designation (get_neo Sample.store 0) ∧
  approaches (get_neo (__init__ Sample.store [0] [0; 0]).2 0) = [0; 0] ∧
  occurrences 0 (approaches (get_neo (__init__ Sample.store [0] [0; 0]).2 0))
  ≠ 1.
Proof.
  split_and!.
  - unfold unlinked. split_and!; compute_done.
  - compute_done.
  - compute_done.
  - reflexivity.
  - vm_compute. reflexivity.
  - vm_compute. discriminate.
Qed.

Lemma init_leaves_unmatched_approach_witness :
  ∃ db h', __init__ Sample.store [0; 1; 2; 3] [0; 1; 2; 3] = (db, h') ∧
    neo (get_ca h' 1) = None ∧
    ∀ n, n ∈ [0; 1; 2; 3] → 1 ∉ approaches (get_neo h' n).
Proof.
  apply (init_leaves_unmatched_approach Sample.store [0; 1; 2; 3] [0; 1; 2; 3] 1).
  - unfold unlinked. split_and!; compute_done.
  - compute_done.
  - apply (Forall_forall
      (λ n, designation (get_neo Sample.store n)
            ≠ _designation (get_ca Sample.store 1))).
    compute_done.
Defined.

Lemma get_neo_by_name_last_witness :
  _name2neo (__init__ Sample.store ([0; 1; 2] ++ 3 :: []) [0; 1; 2; 3]).1
    !! Some "Apophis" = Some 3 ∧
  get_neo_by_name
    (__init__ Sample.store ([0; 1; 2] ++ 3 :: []) [0; 1; 2; 3]).1
    (Some "Apophis") = Return (Some 3).
Proof.
  apply (get_neo_by_name_last Sample.store [0; 1; 2] 3 [] [0; 1; 2; 3] "Apophis").
  - unfold unlinked. split_and!; compute_done.
  - discriminate.
  - reflexivity.
  - exists 0. split; [compute_done | reflexivity].
  - intros m Hm. by apply elem_of_nil in Hm.
Defined.

(** Lookup by name on the sample: the NEO whose name is the empty string is
    not found under [""], and the match is sensitive to case. *)
Example get_neo_by_name_sample :
  name (get_neo Sample.linked 2) = Some "" ∧
  get_neo_by_name Sample.db (Some "") = Return None ∧
  get_neo_by_name Sample.db None = Return None ∧
  get_neo_by_name Sample.db (Some "apophis") = Return None ∧
  get_neo_by_name Sample.db (Some "Apophis") = Return (Some 3).
Proof. split_and!; by vm_compute. Qed.

Lemma query_all_accepting_witness :
  let fs := [Sample.max_distance_filter 1%float;
             Sample.max_distance_filter 0.5%float] in
  yielded (query (__init__ Sample.store [0; 1; 2; 3] [0; 1; 2; 3]).1
                 (__init__ Sample.store [0; 1; 2; 3] [0; 1; 2; 3]).2 fs).1 =
  yielded (query (__init__ Sample.store [0; 1; 2; 3] [0; 1; 2; 3]).1
                 (__init__ Sample.store [0; 1; 2; 3] [0; 1; 2; 3]).2 []).1 ∧
  (query (__init__ Sample.store [0; 1; 2; 3] [0; 1; 2; 3]).1
         (__init__ Sample.store [0; 1; 2; 3] [0; 1; 2; 3]).2 fs).2 =
  (query (__init__ Sample.store [0; 1; 2; 3] [0; 1; 2; 3]).1
         (__init__ Sample.store [0; 1; 2; 3] [0; 1; 2; 3]).2 []).2.
Proof.
  intros fs.
  apply (query_all_accepting Sample.store [0; 1; 2; 3] [0; 1; 2; 3] fs).
  compute_done.
Defined.

Lemma query_applies_every_filter_witness :
  let fs := [Sample.designation_filter "2000 AB";
             Sample.hazardous_filter true] in
  (Forall (answers Sample.linked 1) fs →
   (query Sample.db Sample.linked fs).1 =
     (query_loop Sample.linked fs [0]).1 ++ calls 1 0 (length fs) ++
     (if decide (Forall (accepts Sample.linked 1) fs) then [Yield 1] else []) ++
     (query_loop Sample.linked fs [2; 3]).1) ∧
  (∀ fs1 f fs2,
     fs = fs1 ++ f :: fs2 →
     Forall (answers Sample.linked 1) fs1 →
     f Sample.linked 1 = Raise TypeError →
     query Sample.db Sample.linked fs =
       ((query_loop Sample.linked fs [0]).1 ++ calls 1 0 (S (length fs1)),
        Return tt)).
Proof.
  intros fs.
  apply (query_applies_every_filter Sample.db Sample.linked fs [0] 1 [2; 3]).
  - vm_compute. reflexivity.
  - repeat constructor; eexists; vm_compute; reflexivity.
Defined.

(** On the sample, the approach at 1 is rejected by the first filter and
    makes the second raise: both filters are applied, and the stream ends
    without the approach at 2, which both filters accept. *)
Example query_false_then_TypeError :
  Sample.designation_filter "2000 AB" Sample.linked 1 = Return false ∧
  Sample.hazardous_filter true Sample.linked 1 = Raise TypeError ∧
  Forall (accepts Sample.linked 2)
    [Sample.designation_filter "2000 AB"; Sample.hazardous_filter true] ∧
  query Sample.db Sample.linked
    [Sample.designation_filter "2000 AB"; Sample.hazardous_filter true] =
  ([Call 0 0; Call 1 0; Yield 0; Call 0 1; Call 1 1], Return tt).
Proof. split_and!; [by vm_compute..|compute_done|by vm_compute]. Qed.

(** Rows on the sample: with every time formatted, one row for each of
    the four approaches; an approach whose NEO is named by the empty
    string gets the empty string, not null; with an approach that has no
    time, the rows before it are written and the formatter's error ends
    the writing. *)
Example write_to_csv_sample :
  (write_to_csv Sample.iso_minutes Sample.linked [0; 1; 2; 3]).2 = Return tt ∧
  length (write_to_csv Sample.iso_minutes Sample.linked [0; 1; 2; 3]).1 = 5 ∧
  (∃ row, csv_row Sample.iso_minutes Sample.blank_linked 0 = Return row ∧
          record row !! "name" = Some (CStr "")) ∧
  write_to_csv Sample.iso_minutes Sample.undated [0; 4; 2] =
    ([CStr <$> fieldnames;
      [CStr "2025-01-01 00:00"; CFloat 0.05; CFloat 10; CStr "2000 AB";
       CNone; CNone; CNone]],
     Raise TypeError) ∧
  write_to_csv Sample.iso_minutes Sample.undated [4; 0] =
    ([CStr <$> fieldnames], Raise TypeError).
Proof.
  split_and!; [by vm_compute..| |by vm_compute|by vm_compute].
  eexists. split; by vm_compute.
Qed.

(** C4 as stated fails for an approach whose NEO has no name: the approach
    at 3 is in the stream of [query], it has an NEO (the one at 1, which is
    unnamed), and the [name] field of its row is null all the same. *)
Lemma csv_name_null_for_unnamed_neo :
  yielded (query Sample.db Sample.linked []).1 = [0; 1; 2; 3] ∧
  neo (get_ca Sample.linked 3) = Some 1 ∧
  name (get_neo Sample.linked 1) = None ∧
  ∃ row,
    (write_to_csv Sample.iso_minutes Sample.linked [0; 1; 2; 3]).1 !! 4
      = Some row ∧
    record row !! "name" = Some CNone ∧
    ¬ (record row !! "name" = Some CNone ↔ neo (get_ca Sample.linked 3) = None).
Proof.
  split_and!; [by vm_compute..|].
  eexists. split; [by vm_compute|].
  assert (neo (get_ca Sample.linked 3) = Some 1) as E by (by vm_compute).
  split.
  - by vm_compute.
  - rewrite E. intros [H _]. discriminate H. by vm_compute.
Qed.

Lemma exhausts_list_next {A : Type} (l : list A) : exhausts list_next l l [].
Proof.
  induction l as [|x l IH].
  - by apply exhausts_stop.
  - by eapply exhausts_item.
Qed.

Lemma limit_yields_at_most_witness :
  (∀ n, n = None ∨ n = Some 0 →
     limit [10; 20; 30] n = Unlimited [10; 20; 30] ∧
     exhausts (limited_next list_next) (limit [10; 20; 30] n) [10; 20; 30]
              (Unlimited [])) ∧
  (∀ n, (0 < n)%nat →
     ∃ e',
       exhausts (limited_next list_next) (limit [10; 20; 30] (Some n))
                (take n [10; 20; 30]) e' ∧
       length (take n [10; 20; 30]) = n `min` length [10; 20; 30] ∧
       source e' = (pull list_next (length (take n [10; 20; 30])) [10; 20; 30]).2) ∧
  (∀ n j, (0 < n)%nat →
     pull (limited_next list_next) j (limit [10; 20; 30] (Some n)) =
     (take (j `min` n) [10; 20; 30],
      AtMost (n - length (take (j `min` n) [10; 20; 30]))
             (pull list_next (j `min` n) [10; 20; 30]).2)).
Proof.
  apply (limit_yields_at_most list_next [10; 20; 30] [10; 20; 30] []).
  apply exhausts_list_next.
Defined.

(** Bound 2 on a source of three items: two items come out, and the source
    is left with the third. *)
Example limit_two_of_three :
  pull (limited_next list_next) 5 (limit [10; 20; 30] (Some 2)) =
  ([10; 20], AtMost 0 [30]).
Proof. reflexivity. Qed.

(** * Further properties *)

(** ** Lookup by designation *)

Lemma get_neo_by_designation_lookup db k :
  get_neo_by_designation db k = Return (_des2neo db !! k).
Proof. unfold get_neo_by_designation, getitem. by destruct (_ !! _). Qed.

Lemma index_designation_lookup_inv h ns d k r :
  foldl (index_designation h) d ns !! k = Some r →
  d !! k = Some r ∨ (r ∈ ns ∧ designation (get_neo h r) = k).
Proof.
  revert d. induction ns as [|n ns IH]; intros d Hl; [by left|].
  cbn [foldl] in Hl. apply IH in Hl as [Hl|[? ?]].
  - unfold index_designation in Hl.
    destruct (decide (designation (get_neo h n) = k)) as [E|E].
    + rewrite E, lookup_insert_eq in Hl. injection Hl as <-.
      right. split; [by left | done].
    + rewrite lookup_insert_ne in Hl by done. by left.
  - right. split; [by right | done].
Qed.

Lemma index_designation_lookup_other h ns d k :
  (∀ n, n ∈ ns → designation (get_neo h n) ≠ k) →
  foldl (index_designation h) d ns !! k = d !! k.
Proof.
  revert d. induction ns as [|n ns IH]; intros d Hn; [done|].
  cbn [foldl]. rewrite IH.
  - apply lookup_insert_ne, Hn. by left.
  - intros m Hm. apply Hn. by right.
Qed.

Lemma index_designation_lookup_last h l1 n l2 d :
  (∀ m, m ∈ l2 → designation (get_neo h m) ≠ designation (get_neo h n)) →
  foldl (index_designation h) d (l1 ++ n :: l2)
    !! designation (get_neo h n) = Some n.
Proof.
  intros H2. rewrite foldl_app. cbn [foldl].
  rewrite index_designation_lookup_other by done.
  apply lookup_insert_eq.
Qed.

(** The last element of a list with a given property. *)
Lemma last_with (P : addr → Prop) `{!∀ x, Decision (P x)} (ns : list addr) :
  Exists P ns →
  ∃ l1 n l2, ns = l1 ++ n :: l2 ∧ P n ∧ ∀ m, m ∈ l2 → ¬ P m.
Proof.
  induction ns as [|x ns IH]; intros HE.
  - by apply Exists_nil in HE.
  - destruct (decide (Exists P ns)) as [HE'|HN].
    + destruct (IH HE') as (l1 & n & l2 & -> & Hn & H2).
      by exists (x :: l1), n, l2.
    + apply Exists_cons in HE as [Hx|HE]; [|done].
      exists [], x, ns. split_and!; [done..|].
      intros m Hm Pm. apply HN, Exists_exists. by exists m.
Qed.

(** The designation index of a built database: lookup by designation
    never raises; an NEO it answers with is one of the collection and
    carries exactly the key as its designation; the designation of any NEO
    of the collection, the empty string included, is found; and a key that
    is the designation of no NEO is answered with [None]. *)
Theorem get_neo_by_designation_exact h ns cas :
  let db := (__init__ h ns cas).1 in
  let h' := (__init__ h ns cas).2 in
  (∀ k, ∃ r, get_neo_by_designation db k = Return r) ∧
  (∀ k n, get_neo_by_designation db k = Return (Some n) →
          n ∈ ns ∧ designation (get_neo h' n) = k) ∧
  (∀ m, m ∈ ns →
        ∃ n, get_neo_by_designation db (designation (get_neo h' m))
               = Return (Some n) ∧
             n ∈ ns ∧ designation (get_neo h' n) = designation (get_neo h' m)) ∧
  (∀ k, (∀ n, n ∈ ns → designation (get_neo h' n) ≠ k) →
        get_neo_by_designation db k = Return None).
Proof.
  intros db h'. subst db h'. rewrite init_eq. cbn [fst snd].
  assert (∀ n, designation (get_neo (link_all cas h ns) n)
               = designation (get_neo h n)) as S.
  { intros n. by destruct (same_attributes_link_all cas ns h) as [N _];
      destruct (N n) as (-> & _). }
  assert (∀ k n, foldl (index_designation h) ∅ ns !! k = Some n →
                 n ∈ ns ∧ designation (get_neo h n) = k) as I.
  { intros k n Hl.
    apply index_designation_lookup_inv in Hl as [Hl|?]; [|done].
    by rewrite lookup_empty in Hl. }
  split_and!.
  - intros k. rewrite get_neo_by_designation_lookup. by eexists.
  - intros k n. rewrite get_neo_by_designation_lookup, S. cbn [_des2neo].
    intros [= Hl]. by apply I.
  - intros m Hm. rewrite get_neo_by_designation_lookup. cbn [_des2neo].
    destruct (last_with
      (λ n, designation (get_neo h n) = designation (get_neo h m)) ns)
      as (l1 & n & l2 & -> & En & H2).
    { apply Exists_exists. by exists m. }
    exists n. rewrite !S, <- En.
    rewrite index_designation_lookup_last.
    + split_and!; [done| |done]. apply elem_of_app. right. by left.
    + intros x Hx. rewrite En. by apply H2.
  - intros k Hk. rewrite get_neo_by_designation_lookup. cbn [_des2neo].
    rewrite index_designation_lookup_other, lookup_empty; [done|].
    intros n Hn. rewrite <- S. by apply Hk.
Qed.

(** Under the precondition of the constructor (designations are unique),
    lookup by the designation of an NEO of the collection answers with
    exactly that NEO. *)
Theorem get_neo_by_designation_round_trip h ns cas n :
  unlinked h ns cas →
  n ∈ ns →
  get_neo_by_designation (__init__ h ns cas).1 (designation (get_neo h n))
  = Return (Some n).
Proof.
  intros U Hn. apply list_elem_of_split in Hn as (l1 & l2 & ->).
  destruct (unlinked_split _ _ _ _ _ U) as (_ & _ & D).
  rewrite get_neo_by_designation_lookup, init_eq. cbn [fst _des2neo].
  rewrite index_designation_lookup_last; [done|].
  intros m Hm. apply D, elem_of_app. by right.
Qed.

Lemma get_neo_by_designation_round_trip_witness :
  get_neo_by_designation (__init__ Sample.store [0; 1; 2; 3] [0; 1; 2; 3]).1
    (designation (get_neo Sample.store 2)) = Return (Some 2).
Proof.
  apply (get_neo_by_designation_round_trip Sample.store [0; 1; 2; 3]
           [0; 1; 2; 3] 2).
  - unfold unlinked. split_and!; compute_done.
  - compute_done.
Defined.

(** ** Linking: what the constructor keeps *)

Lemma links_ca_frame n l h a :
  a ∉ l → get_ca (foldl (link n) h l) a = get_ca h a.
Proof.
  revert h. induction l as [|b l IH]; intros h Ha; [done|].
  apply not_elem_of_cons in Ha as [Hab Ha]. cbn [foldl].
  rewrite IH, get_ca_link, decide_False; [done| |done].
  intros [_ ->]. done.
Qed.

Lemma link_all_ca_frame cas ns h a :
  a ∉ cas → get_ca (link_all cas h ns) a = get_ca h a.
Proof.
  intros Ha. revert h. induction ns as [|n ns IH]; intros h; [done|].
  by rewrite link_all_cons, IH, links_ca_frame.
Qed.

(** An approach is only ever given an NEO of its own designation. *)
Lemma link_all_ca_inv cas ns h a n :
  neo (get_ca (link_all cas h ns) a) = Some n →
  neo (get_ca h a) = Some n ∨
  (n ∈ ns ∧ a ∈ cas ∧
   _designation (get_ca h a) = designation (get_neo h n)).
Proof.
  revert h. induction ns as [|m ns IH]; intros h Hn; [by left|].
  rewrite link_all_cons in Hn. apply IH in Hn.
  destruct (same_attributes_links m cas h) as [N C].
  destruct (N n) as (En & _). destruct (C a) as (Ea & _).
  rewrite En, Ea in Hn. destruct Hn as [Hn|(? & ? & ?)].
  - rewrite links_ca in Hn.
    destruct (decide (a ∈ cas ∧
      _designation (get_ca h a) = designation (get_neo h m))) as [[? ?]|_].
    + injection Hn as <-. right. split_and!; [by left|done..].
    + by left.
  - right. split_and!; [by right|done..].
Qed.

(** The constructor writes [approach.neo] and [neo.approaches] and nothing
    else: every other attribute of every object is as before, an approach
    outside the approach collection and an NEO outside the NEO collection
    are untouched, and the database holds the two collections it was
    given. *)
Theorem init_frame h ns cas :
  let db := (__init__ h ns cas).1 in
  let h' := (__init__ h ns cas).2 in
  same_attributes h h' ∧
  (∀ a, a ∉ cas → get_ca h' a = get_ca h a) ∧
  (∀ n, n ∉ ns → get_neo h' n = get_neo h n) ∧
  _neos db = ns ∧ _approaches db = cas.
Proof.
  intros db h'. subst db h'. rewrite init_eq. cbn [fst snd _neos _approaches].
  split_and!; [|intros a Ha|intros n Hn|done..].
  - apply same_attributes_link_all.
  - by apply link_all_ca_frame.
  - by apply link_all_neo_other.
Qed.

(** After construction the NEO of an approach is the one the designation
    index holds for the designation of the approach, and the approach has
    none when the index has none.  This needs no uniqueness of
    designations: both are the last NEO of that designation. *)
Theorem approach_neo_agrees_with_index h ns cas a :
  a ∈ cas →
  neo (get_ca h a) = None →
  get_neo_by_designation (__init__ h ns cas).1 (_designation (get_ca h a))
  = Return (neo (get_ca (__init__ h ns cas).2 a)).
Proof.
  intros Ha Hnone.
  rewrite get_neo_by_designation_lookup, init_eq. cbn [fst snd _des2neo].
  f_equal.
  destruct (decide (Exists
    (λ n, designation (get_neo h n) = _designation (get_ca h a)) ns))
    as [HE|HN].
  - destruct (last_with _ ns HE) as (l1 & n & l2 & -> & En & H2).
    rewrite <- En, index_designation_lookup_last.
    + symmetry. apply link_all_ca; [done..|].
      intros m Hm. rewrite En. by apply H2.
    + intros m Hm. rewrite En. by apply H2.
  - assert (∀ n, n ∈ ns →
              designation (get_neo h n) ≠ _designation (get_ca h a)) as D.
    { intros n Hn E. apply HN, Exists_exists. by exists n. }
    rewrite index_designation_lookup_other, lookup_empty by done.
    by rewrite link_all_ca_other.
Qed.

Lemma approach_neo_agrees_with_index_witness :
  get_neo_by_designation (__init__ Sample.twins [0; 1; 2] [0]).1
    (_designation (get_ca Sample.twins 0))
  = Return (neo (get_ca (__init__ Sample.twins [0; 1; 2] [0]).2 0)).
Proof.
  apply (approach_neo_agrees_with_index Sample.twins [0; 1; 2] [0] 0).
  - compute_done.
  - reflexivity.
Defined.

(** Under the precondition of the constructor the two directions of the
    link agree: the approaches of an NEO of the collection are the
    approaches of the collection that carry its designation, in the order
    of the collection, and an approach of the collection is among them
    exactly when that NEO is its [neo]. *)
Theorem init_links_both_ways h ns cas n :
  unlinked h ns cas →
  n ∈ ns →
  let h' := (__init__ h ns cas).2 in
  approaches (get_neo h' n) =
    filter (λ a, _designation (get_ca h a) = designation (get_neo h n)) cas ∧
  ∀ a, a ∈ cas →
       (a ∈ approaches (get_neo h' n) ↔ neo (get_ca h' a) = Some n).
Proof.
  intros U Hn h'. subst h'. rewrite init_eq. cbn [snd].
  apply list_elem_of_split in Hn as (l1 & l2 & ->).
  destruct (unlinked_split _ _ _ _ _ U) as (N1 & N2 & D).
  destruct U as (C & A & _). rewrite Forall_forall in C, A.
  assert (approaches (get_neo h n) = []) as An.
  { apply A, elem_of_app. right. by left. }
  rewrite link_all_approaches, An by done. cbn [app].
  split; [done|]. intros a Ha. rewrite list_elem_of_filter. split.
  - intros [E _]. apply link_all_ca; [done..|].
    intros m Hm. apply D, elem_of_app. by right.
  - intros Hl. apply link_all_ca_inv in Hl as [Hl|(_ & _ & E)]; [|done].
    rewrite (C a Ha) in Hl. discriminate.
Qed.

Lemma init_links_both_ways_witness :
  approaches (get_neo (__init__ Sample.store [0; 1; 2; 3] [0; 1; 2; 3]).2 0) =
    filter (λ a, _designation (get_ca Sample.store a)
                 = designation (get_neo Sample.store 0)) [0; 1; 2; 3] ∧
  ∀ a, a ∈ [0; 1; 2; 3] →
       (a ∈ approaches
              (get_neo (__init__ Sample.store [0; 1; 2; 3] [0; 1; 2; 3]).2 0)
        ↔ neo (get_ca (__init__ Sample.store [0; 1; 2; 3] [0; 1; 2; 3]).2 a)
          = Some 0).
Proof.
  apply (init_links_both_ways Sample.store [0; 1; 2; 3] [0; 1; 2; 3] 0).
  - unfold unlinked. split_and!; compute_done.
  - compute_done.
Defined.

(** When two NEO objects of the collection carry the same designation, an
    approach of that designation is appended to the approaches of both, but
    its [neo] is the later one only, which is also the one the designation
    index holds. *)
Theorem init_duplicate_designation h l1 n1 l2 n2 l3 cas a :
  NoDup (l1 ++ n1 :: l2 ++ n2 :: l3) →
  a ∈ cas →
  designation (get_neo h n1) = _designation (get_ca h a) →
  designation (get_neo h n2) = _designation (get_ca h a) →
  (∀ m, m ∈ l3 → designation (get_neo h m) ≠ _designation (get_ca h a)) →
  let db := (__init__ h (l1 ++ n1 :: l2 ++ n2 :: l3) cas).1 in
  let h' := (__init__ h (l1 ++ n1 :: l2 ++ n2 :: l3) cas).2 in
  a ∈ approaches (get_neo h' n1) ∧
  a ∈ approaches (get_neo h' n2) ∧
  neo (get_ca h' a) = Some n2 ∧
  get_neo_by_designation db (_designation (get_ca h a)) = Return (Some n2).
Proof.
  intros ND Ha E1 E2 H3 db h'. subst db h'. rewrite init_eq. cbn [fst snd].
  assert (a ∈ filter (λ b, _designation (get_ca h b)
                           = _designation (get_ca h a)) cas) as Hf.
  { by apply list_elem_of_filter. }
  pose proof ND as ND1.
  apply NoDup_app in ND1 as (_ & D1 & ND1).
  apply NoDup_cons in ND1 as (D1' & _).
  pose proof ND as ND2.
  replace (l1 ++ n1 :: l2 ++ n2 :: l3) with ((l1 ++ n1 :: l2) ++ n2 :: l3)
    in ND2 by (by rewrite <- app_assoc).
  apply NoDup_app in ND2 as (_ & D2 & ND2).
  apply NoDup_cons in ND2 as (D2' & _).
  split_and!.
  - rewrite link_all_approaches.
    + apply elem_of_app. right. by rewrite E1.
    + intros Hin. apply (D1 n1 Hin). by left.
    + done.
  - replace (l1 ++ n1 :: l2 ++ n2 :: l3) with ((l1 ++ n1 :: l2) ++ n2 :: l3)
      by (by rewrite <- app_assoc).
    rewrite link_all_approaches.
    + apply elem_of_app. right. by rewrite E2.
    + intros Hin. apply (D2 n2 Hin). by left.
    + done.
  - replace (l1 ++ n1 :: l2 ++ n2 :: l3) with ((l1 ++ n1 :: l2) ++ n2 :: l3)
      by (by rewrite <- app_assoc).
    apply link_all_ca; [done..|]. intros m Hm. rewrite E2. by apply H3.
  - rewrite get_neo_by_designation_lookup. cbn [_des2neo].
    replace (l1 ++ n1 :: l2 ++ n2 :: l3) with ((l1 ++ n1 :: l2) ++ n2 :: l3)
      by (by rewrite <- app_assoc).
    rewrite <- E2, index_designation_lookup_last; [done|].
    intros m Hm. rewrite E2. by apply H3.
Qed.

Lemma init_duplicate_designation_witness :
  0 ∈ approaches
        (get_neo (__init__ Sample.twins ([] ++ 0 :: [1] ++ 2 :: []) [0]).2 0) ∧
  0 ∈ approaches
        (get_neo (__init__ Sample.twins ([] ++ 0 :: [1] ++ 2 :: []) [0]).2 2) ∧
  neo (get_ca (__init__ Sample.twins ([] ++ 0 :: [1] ++ 2 :: []) [0]).2 0)
    = Some 2 ∧
  get_neo_by_designation
    (__init__ Sample.twins ([] ++ 0 :: [1] ++ 2 :: []) [0]).1
    (_designation (get_ca Sample.twins 0)) = Return (Some 2).
Proof.
  apply (init_duplicate_designation Sample.twins [] 0 [1] 2 [] [0] 0).
  - compute_done.
  - compute_done.
  - reflexivity.
  - reflexivity.
  - intros m Hm. by apply elem_of_nil in Hm.
Defined.

(** ** Query: filtering, exceptions, order of the filters *)

(** Either every filter answers on an approach, or there is a first one
    that raises. *)
Lemma first_raise h a (fs : list AttributeFilter) :
  Forall (answers h a) fs ∨
  ∃ fs1 f fs2 e,
    fs = fs1 ++ f :: fs2 ∧ Forall (answers h a) fs1 ∧ f h a = Raise e.
Proof.
  induction fs as [|f fs IH]; [by left|].
  destruct (f h a) as [b|e] eqn:Hf.
  - destruct IH as [IH|(fs1 & g & fs2 & e & -> & H1 & Hg)].
    + left. constructor; [by exists b | done].
    + right. exists (f :: fs1), g, fs2, e. split_and!; [done| |done].
      constructor; [by exists b | done].
  - right. by exists [], f, fs, e.
Qed.

Lemma query_step_raises h fs1 (f : AttributeFilter) fs2 a e :
  Forall (answers h a) fs1 → f h a = Raise e → e ≠ TypeError →
  query_step h (fs1 ++ f :: fs2) a = (calls a 0 (S (length fs1)), Raise e).
Proof.
  intros Hfs He Hne. unfold query_step.
  assert (set_comprehension h a 0 (fs1 ++ f :: fs2)
          = (calls a 0 (S (length fs1)), Raise e)) as ->
    by (by apply set_comprehension_raises).
  rewrite bind_Raise. by destruct e.
Qed.

(** What a round yields and how it ends, in every case. *)
Lemma query_step_cases h fs a :
  (Forall (answers h a) fs ∧
   (query_step h fs a).2 = Return Next ∧
   yielded (query_step h fs a).1 =
     if decide (Forall (accepts h a) fs) then [a] else []) ∨
  (¬ Forall (answers h a) fs ∧
   yielded (query_step h fs a).1 = [] ∧
   ((query_step h fs a).2 = Return Stop ∨
    ∃ e, e ≠ TypeError ∧ (query_step h fs a).2 = Raise e)).
Proof.
  destruct (first_raise h a fs) as [Hall|(fs1 & f & fs2 & e & -> & H1 & Hf)].
  - left. rewrite query_step_answers by done. cbn [fst snd].
    split_and!; [done..|]. rewrite yielded_app, yielded_calls.
    by destruct (decide _).
  - right. split.
    { intros Hall. apply Forall_app in Hall as [_ Hall].
      apply Forall_cons in Hall as [[b Hb] _]. congruence. }
    destruct (decide (e = TypeError)) as [->|Hne].
    + replace (query_step h (fs1 ++ f :: fs2) a)
        with (calls a 0 (S (length fs1)), Return Stop : outcome flow)
        by (symmetry; by apply query_step_TypeError).
      cbn [fst snd]. split; [apply yielded_calls | by left].
    + rewrite (query_step_raises h fs1 f fs2 a e) by done. cbn [fst snd].
      split; [apply yielded_calls | right; by exists e].
Qed.

(** Whatever the filters do, [query] yields approaches of the collection
    only, in the order of the collection and none more often than the
    collection holds it, and every approach it yields is accepted by every
    filter. *)
Theorem query_yields_accepted db h fs :
  yielded (query db h fs).1 `sublist_of` _approaches db ∧
  Forall (λ a, Forall (accepts h a) fs) (yielded (query db h fs).1).
Proof.
  unfold query. split; [apply query_loop_sublist|].
  induction (_approaches db) as [|a l IH]; [by constructor|].
  rewrite query_loop_cons.
  destruct (query_step_cases h fs a) as [(_ & R & Y)|(_ & Y & R)].
  - destruct (query_step h fs a) as [t r]. cbn [fst snd] in *. subst r.
    cbn [fst]. rewrite yielded_app, Y. apply Forall_app. split; [|done].
    destruct (decide (Forall (accepts h a) fs)); by constructor.
  - destruct (query_step h fs a) as [t [[]|e]]; cbn [fst snd] in *;
      rewrite ?yielded_app, Y; [|by constructor..].
    by destruct R as [R|(e & _ & R)].
Qed.

Lemma query_loop_is_filter h fs l :
  Forall (λ a, Forall (answers h a) fs) l →
  yielded (query_loop h fs l).1 = filter (λ a, Forall (accepts h a) fs) l.
Proof.
  induction 1 as [|a l Ha _ IH]; [done|].
  rewrite query_loop_cons, query_step_answers by done. cbn [fst snd].
  rewrite !yielded_app, yielded_calls, IH, filter_cons.
  by destruct (decide _).
Qed.

(** When no filter raises on any approach of the collection, [query] yields
    exactly the approaches that every filter accepts, in the order of the
    collection, and ends normally: an approach some filter rejects is passed
    over and the stream goes on. *)
Theorem query_is_filter db h fs :
  Forall (λ a, Forall (answers h a) fs) (_approaches db) →
  yielded (query db h fs).1 =
    filter (λ a, Forall (accepts h a) fs) (_approaches db) ∧
  (query db h fs).2 = Return tt.
Proof.
  intros Hall. unfold query. split.
  - by apply query_loop_is_filter.
  - by apply query_loop_answers_end.
Qed.

Lemma query_is_filter_witness :
  yielded (query Sample.db Sample.linked
             [Sample.designation_filter "2000 AB";
              Sample.max_distance_filter 1%float]).1 =
    filter (λ a, Forall (accepts Sample.linked a)
                   [Sample.designation_filter "2000 AB";
                    Sample.max_distance_filter 1%float])
           (_approaches Sample.db) ∧
  (query Sample.db Sample.linked
     [Sample.designation_filter "2000 AB";
      Sample.max_distance_filter 1%float]).2 = Return tt.
Proof.
  apply (query_is_filter Sample.db Sample.linked).
  repeat constructor; eexists; vm_compute; reflexivity.
Defined.

(** An exception other than [TypeError] is not caught: when the loop of
    [query] reaches an approach on which the first filter to raise raises
    such an exception, the exception leaves [query]; what was accepted
    before that approach has been yielded by then. *)
Theorem query_lets_other_exceptions_out db h pre a post fs1
    (f : AttributeFilter) fs2 e :
  _approaches db = pre ++ a :: post →
  Forall (λ b, Forall (answers h b) (fs1 ++ f :: fs2)) pre →
  Forall (answers h a) fs1 →
  f h a = Raise e →
  e ≠ TypeError →
  (query db h (fs1 ++ f :: fs2)).2 = Raise e ∧
  yielded (query db h (fs1 ++ f :: fs2)).1 =
    filter (λ b, Forall (accepts h b) (fs1 ++ f :: fs2)) pre.
Proof.
  intros E Hpre Hfs Hf Hne. unfold query. rewrite E.
  rewrite query_loop_app by done. cbn [fst snd].
  rewrite query_loop_cons, (query_step_raises h fs1 f fs2 a e) by done.
  cbn [fst snd]. split; [done|].
  rewrite !yielded_app, yielded_calls, app_nil_r.
  by rewrite query_loop_is_filter.
Qed.

Lemma query_lets_other_exceptions_out_witness :
  let boom : AttributeFilter :=
    λ h a, if decide (a = 2) then Raise (OtherError "ValueError")
           else Return (bool_decide (a = 0)) in
  (query Sample.db Sample.linked
     ([Sample.max_distance_filter 1%float] ++ boom :: [])).2
  = Raise (OtherError "ValueError") ∧
  yielded (query Sample.db Sample.linked
             ([Sample.max_distance_filter 1%float] ++ boom :: [])).1 =
    filter (λ b, Forall (accepts Sample.linked b)
                   ([Sample.max_distance_filter 1%float] ++ boom :: []))
           [0; 1].
Proof.
  intros boom.
  apply (query_lets_other_exceptions_out Sample.db Sample.linked
           [0; 1] 2 [3] [Sample.max_distance_filter 1%float] boom []
           (OtherError "ValueError")).
  - vm_compute. reflexivity.
  - repeat constructor; eexists; vm_compute; reflexivity.
  - repeat constructor; eexists; vm_compute; reflexivity.
  - reflexivity.
  - discriminate.
Defined.

Lemma query_step_settled h fs a :
  Forall (settles h a) fs → ¬ Forall (answers h a) fs →
  (query_step h fs a).2 = Return Stop ∧ yielded (query_step h fs a).1 = [].
Proof.
  intros Hs Hn.
  destruct (first_raise h a fs) as [Hall|(fs1 & f & fs2 & e & -> & H1 & Hf)];
    [done|].
  apply Forall_app in Hs as [_ Hs]. apply Forall_cons in Hs as [Hs _].
  destruct Hs as [[b Hb]|Hs]; [congruence|].
  replace (query_step h (fs1 ++ f :: fs2) a)
    with (calls a 0 (S (length fs1)), Return Stop : outcome flow)
    by (symmetry; apply query_step_TypeError; [done | congruence]).
  split; [done | apply yielded_calls].
Qed.

(** The order of the filters does not matter as long as no filter raises
    anything but [TypeError] on the approaches of the collection: [query]
    yields the same sequence and ends the same way for any rearrangement of
    the filters. *)
Theorem query_filter_order db h fs fs' :
  fs ≡ₚ fs' →
  Forall (λ a, Forall (settles h a) fs) (_approaches db) →
  yielded (query db h fs).1 = yielded (query db h fs').1 ∧
  (query db h fs).2 = (query db h fs').2.
Proof.
  intros Hp. unfold query.
  induction 1 as [|a l Ha _ [IH1 IH2]]; [done|].
  assert (Forall (settles h a) fs') as Ha' by (by rewrite <- Hp).
  rewrite !query_loop_cons.
  destruct (decide (Forall (answers h a) fs)) as [Hall|Hn].
  - assert (Forall (answers h a) fs') as Hall' by (by rewrite <- Hp).
    rewrite !query_step_answers by done. cbn [fst snd].
    rewrite !yielded_app, !yielded_calls, IH1, IH2. split; [|done].
    destruct (decide (Forall (accepts h a) fs)) as [Hacc|Hacc].
    + rewrite decide_True; [done|]. by rewrite <- Hp.
    + rewrite decide_False; [done|]. by rewrite <- Hp.
  - assert (¬ Forall (answers h a) fs') as Hn' by (by rewrite <- Hp).
    destruct (query_step_settled h fs a Ha Hn) as [R Y].
    destruct (query_step_settled h fs' a Ha' Hn') as [R' Y'].
    destruct (query_step h fs a) as [t r], (query_step h fs' a) as [t' r'].
    cbn [fst snd] in *. subst r r'. cbn [fst snd]. by rewrite Y, Y'.
Qed.

Lemma query_filter_order_witness :
  yielded (query Sample.db Sample.linked
             [Sample.designation_filter "2000 AB";
              Sample.hazardous_filter true]).1 =
  yielded (query Sample.db Sample.linked
             [Sample.hazardous_filter true;
              Sample.designation_filter "2000 AB"]).1 ∧
  (query Sample.db Sample.linked
     [Sample.designation_filter "2000 AB"; Sample.hazardous_filter true]).2 =
  (query Sample.db Sample.linked
     [Sample.hazardous_filter true; Sample.designation_filter "2000 AB"]).2.
Proof.
  apply (query_filter_order Sample.db Sample.linked).
  - apply perm_swap.
  - compute_done.
Defined.

(** ** CSV: where writing stops *)

Section WriteErrors.

Variable datetime_to_str : option datetime → outcome string.

Lemma csv_row_outcome h a :
  match time_str datetime_to_str (get_ca h a) with
  | Return _ => ∃ row, csv_row datetime_to_str h a = Return row
  | Raise e => csv_row datetime_to_str h a = Raise e
  end.
Proof.
  unfold csv_row. destruct (time_str _ _) as [s|e]; [by eexists | done].
Qed.

Lemma write_rows_prefix h results :
  ∃ rows r,
    write_rows datetime_to_str h results = (rows, r) ∧
    Forall2 (λ a row, csv_row datetime_to_str h a = Return row)
            (take (length rows) results) rows ∧
    match r with
    | Return _ => length rows = length results
    | Raise e =>
        ∃ a, results !! length rows = Some a ∧
             time_str datetime_to_str (get_ca h a) = Raise e
    end.
Proof.
  induction results as [|a results (rows & r & Hw & Hrows & Hr)].
  - exists [], (Return tt). by split_and!.
  - pose proof (csv_row_outcome h a) as Ha.
    destruct (time_str datetime_to_str (get_ca h a)) as [s|e] eqn:Ht.
    + destruct Ha as [row Hrow]. exists (row :: rows), r.
      cbn [write_rows]. unfold lift, emit. rewrite Hrow, Hw.
      rewrite !bind_Return. cbn [fst snd app length take].
      split_and!; [done|by constructor|].
      destruct r as [[]|e]; [by rewrite Hr | done].
    + exists [], (Raise e).
      cbn [write_rows]. unfold lift. rewrite Ha.
      split_and!; [done|by constructor|]. by exists a.
Qed.

(** [write_to_csv] always writes the header first, then one row for each
    approach of the stream, in order, up to the first approach whose time
    cannot be formatted: there it stops with the error of the formatter,
    and the rows written before stay written.  It finishes normally exactly
    when it has written a row for every approach; for an empty stream that
    is the header alone. *)
Theorem write_to_csv_stops_at_first_error h results :
  ∃ rows r,
    write_to_csv datetime_to_str h results =
      ((CStr <$> fieldnames) :: rows, r) ∧
    Forall2 (λ a row, csv_row datetime_to_str h a = Return row)
            (take (length rows) results) rows ∧
    match r with
    | Return _ => length rows = length results
    | Raise e =>
        ∃ a, results !! length rows = Some a ∧
             time_str datetime_to_str (get_ca h a) = Raise e
    end.
Proof.
  destruct (write_rows_prefix h results) as (rows & r & Hw & Hrows & Hr).
  exists rows, r. split; [|done].
  unfold write_to_csv, emit. by rewrite bind_Return, Hw.
Qed.

End WriteErrors.

(** ** models.py: [fullname] and [create] *)

Lemma string_app_not_self (d x : string) : x ≠ "" → d +:+ x ≠ d.
Proof.
  intros Hx. induction d as [|c d IH]; [done|].
  intros E. cbn in E. injection E as E. by apply IH.
Qed.

(** [fullname] is the bare designation exactly for an NEO without a name
    ([None] or the empty string); for a named NEO it is the designation
    followed by the name in parentheses. *)
Theorem fullname_bare_iff_unnamed o :
  (fullname o = designation o ↔ truthy (name o) = false) ∧
  (∀ k, name o = Some k → k ≠ "" →
        fullname o = designation o +:+ " (" +:+ k +:+ ")").
Proof.
  unfold fullname. split.
  - destruct (truthy (name o)) eqn:T; [|done]. split; [|done].
    intros E. by apply string_app_not_self in E.
  - intros k Hk Hne. rewrite Hk.
    by rewrite (proj2 (truthy_Some k) Hne).
Qed.

Lemma item_Return {A : Type} (l : list A) i x :
  item l i = Return x ↔ l !! i = Some x.
Proof. unfold item. destruct (l !! i); naive_solver. Qed.

Lemma item_short {A : Type} (l : list A) i :
  (length l ≤ i)%nat → item l i = Raise IndexError.
Proof. intros Hl. unfold item. by rewrite lookup_ge_None_2. Qed.

Lemma item_long {A : Type} (l : list A) i :
  (i < length l)%nat → ∃ x, item l i = Return x.
Proof.
  intros Hl. unfold item. destruct (lookup_lt_is_Some_2 l i Hl) as [x ->].
  by exists x.
Qed.

Lemma py_str_Y x : String.eqb (py_str x) "Y" = true ↔ x = Some "Y".
Proof.
  rewrite String.eqb_eq. destruct x as [s|]; simpl; [naive_solver|].
  split; discriminate.
Qed.

Lemma obind_Return {A B : Type} (k : A → outcome B) (x : A) :
  Return x ≫= k = k x.
Proof. done. Qed.

Lemma obind_Raise {A B : Type} (k : A → outcome B) (e : exn) :
  Raise e ≫= k = Raise e.
Proof. done. Qed.

Section CreateProperties.

Variable float_of_str : string → outcome float.
Variable cd_to_datetime : string → outcome datetime.

Ltac osimpl H :=
  repeat first [ rewrite obind_Return in H
               | rewrite obind_Raise in H
               | progress unfold mret, outcome_ret in H ].

Lemma NearEarthObject_create_shape row o :
  NearEarthObject_create float_of_str row = Return o →
  ∃ x3 x4 x15 x7 d,
    row !! 3 = Some x3 ∧ row !! 4 = Some x4 ∧
    row !! 15 = Some x15 ∧ row !! 7 = Some x7 ∧
    (if truthy x15 then py_float float_of_str x15 = Return d else d = nan) ∧
    o = NearEarthObject_init (py_str x3)
          (if truthy x4 then Some (py_str x4) else None) d
          (if String.eqb (py_str x7) "Y" then true else false).
Proof.
  clear cd_to_datetime.
  unfold NearEarthObject_create. intros H.
  destruct (item row 3) as [x3|] eqn:E3; osimpl H; [|done].
  destruct (item row 4) as [x4|] eqn:E4; osimpl H; [|done].
  assert (item row 15 ≫= (λ c15,
            (if truthy c15
             then item row 15 ≫= λ x15, py_float float_of_str x15
             else Return nan) ≫= λ diam,
            item row 7 ≫= λ x7,
            Return (NearEarthObject_init (py_str x3)
                      (if truthy x4 then Some (py_str x4) else None) diam
                      (if String.eqb (py_str x7) "Y" then true else false)))
          = Return o) as H'.
  { destruct (truthy x4); osimpl H; exact H. }
  clear H. rename H' into H.
  destruct (item row 15) as [x15|] eqn:E15; osimpl H; [|done].
  assert (∃ d, (if truthy x15 then py_float float_of_str x15 = Return d
                else d = nan) ∧
               item row 7 ≫= (λ x7,
                 Return (NearEarthObject_init (py_str x3)
                           (if truthy x4 then Some (py_str x4) else None) d
                           (if String.eqb (py_str x7) "Y" then true else false)))
               = Return o) as (d & Hd & H').
  { destruct (truthy x15).
    - destruct (py_float float_of_str x15) as [d|]; osimpl H; [|done].
      by exists d.
    - osimpl H. by exists nan. }
  clear H. rename H' into H.
  destruct (item row 7) as [x7|] eqn:E7; osimpl H; [|done].
  injection H as <-.
  apply item_Return in E3, E4, E15, E7.
  by exists x3, x4, x15, x7, d.
Qed.

Lemma NearEarthObject_create_name row o :
  NearEarthObject_create float_of_str row = Return o →
  approaches o = [] ∧ (name o = None ∨ ∃ k, name o = Some k ∧ k ≠ "").
Proof.
  clear cd_to_datetime. intros H.
  destruct (NearEarthObject_create_shape row o H)
    as (x3 & x4 & x15 & x7 & d & _ & _ & _ & _ & _ & ->).
  split; [done|]. cbn [NearEarthObject_init name].
  destruct x4 as [k|]; [|by left]. simpl.
  destruct (String.eqb_spec k ""); [by left|]. right. by exists k.
Qed.

(** What [NearEarthObject.create] returns, when it returns: the row has
    at least 16 fields; the new NEO has no approaches yet; its designation
    is field 3; its name is [None] exactly when field 4 is empty, and is
    never the empty string; it is hazardous exactly when field 7 is ["Y"];
    its diameter is not-a-number when field 15 is empty. *)
Theorem NearEarthObject_create_returns row o :
  NearEarthObject_create float_of_str row = Return o →
  (16 ≤ length row)%nat ∧
  approaches o = [] ∧
  (∃ x3, row !! 3 = Some x3 ∧ designation o = py_str x3) ∧
  (∃ x4, row !! 4 = Some x4 ∧
         name o = if truthy x4 then Some (py_str x4) else None) ∧
  (name o = None ∨ ∃ k, name o = Some k ∧ k ≠ "") ∧
  (hazardous o = true ↔ row !! 7 = Some (Some "Y")) ∧
  (∃ x15, row !! 15 = Some x15 ∧
          if truthy x15 then py_float float_of_str x15 = Return (diameter o)
          else diameter o = nan).
Proof.
  clear cd_to_datetime. intros H.
  destruct (NearEarthObject_create_name row o H) as [Happ Hname].
  destruct (NearEarthObject_create_shape row o H)
    as (x3 & x4 & x15 & x7 & d & E3 & E4 & E15 & E7 & Hd & ->).
  cbn [NearEarthObject_init designation name diameter hazardous approaches]
    in *.

  split_and!.
  - apply lookup_lt_Some in E15. lia.
  - done.
  - by exists x3.
  - by exists x4.
  - done.
  - rewrite E7. destruct (String.eqb (py_str x7) "Y") eqn:EY.
    + apply py_str_Y in EY as ->. done.
    + split; [done|]. intros [= ->]. done.
  - exists x15. split; [done|]. by destruct (truthy x15).
Qed.

Ltac osimpl_goal :=
  repeat first [ rewrite obind_Return
               | rewrite obind_Raise
               | progress unfold mret, outcome_ret ].

(** When [NearEarthObject.create] fails and when it returns: a row of
    fewer than 16 fields makes it raise [IndexError]; on a row of at least
    16 fields it raises what [float] raises on a non-empty field 15, and
    returns otherwise. *)
Theorem NearEarthObject_create_outcome row :
  ((length row < 16)%nat →
   NearEarthObject_create float_of_str row = Raise IndexError) ∧
  ((16 ≤ length row)%nat →
   ∃ x15, row !! 15 = Some x15 ∧
     if truthy x15
     then match py_float float_of_str x15 with
          | Return _ => ∃ o, NearEarthObject_create float_of_str row = Return o
          | Raise e => NearEarthObject_create float_of_str row = Raise e
          end
     else ∃ o, NearEarthObject_create float_of_str row = Return o).
Proof.
  unfold NearEarthObject_create. split; intros Hl.
  - destruct (decide (length row ≤ 3)%nat) as [H3|H3].
    { by rewrite (item_short row 3 H3). }
    destruct (item_long row 3) as [x3 ->]; [lia|]. osimpl_goal.
    destruct (decide (length row ≤ 4)%nat) as [H4|H4].
    { by rewrite (item_short row 4 H4). }
    destruct (item_long row 4) as [x4 ->]; [lia|]. osimpl_goal.
    rewrite (item_short row 15) by lia.
    destruct (truthy x4); by osimpl_goal.
  - destruct (item_long row 3) as [x3 E3]; [lia|].
    destruct (item_long row 4) as [x4 E4]; [lia|].
    destruct (item_long row 7) as [x7 E7]; [lia|].
    destruct (item_long row 15) as [x15 E15]; [lia|].
    exists x15. split; [by apply item_Return|].
    rewrite E3, E4, E15, E7. osimpl_goal.
    destruct (truthy x15) eqn:T15.
    + destruct (py_float float_of_str x15) as [d|e].
      * destruct (truthy x4); eexists; osimpl_goal;
          rewrite ?T15; osimpl_goal; done.
      * destruct (truthy x4); osimpl_goal; rewrite ?T15; by osimpl_goal.
    + destruct (truthy x4); eexists; osimpl_goal;
        rewrite ?T15; osimpl_goal; done.
Qed.

Lemma CloseApproach_create_eq data x0 x3 x4 x7 :
  data !! 0 = Some x0 → data !! 3 = Some x3 →
  data !! 4 = Some x4 → data !! 7 = Some x7 →
  CloseApproach_create float_of_str cd_to_datetime data =
  (if truthy x4 then py_float float_of_str x4 else Return 0%float) ≫= λ dist,
  (if truthy x7 then py_float float_of_str x7 else Return 0%float) ≫= λ vel,
  CloseApproach_init cd_to_datetime (py_str x0)
    (if truthy x3 then Some (py_str x3) else None) dist vel.
Proof.
  intros E0 E3 E4 E7. apply item_Return in E0, E3, E4, E7.
  unfold CloseApproach_create. rewrite E0, E3, E4, E7. osimpl_goal.
  destruct (truthy x3); osimpl_goal; destruct (truthy x4); osimpl_goal;
    destruct (py_float float_of_str x4); osimpl_goal;
    destruct (truthy x7); osimpl_goal; done.
Qed.

Lemma CloseApproach_create_long data c :
  CloseApproach_create float_of_str cd_to_datetime data = Return c →
  (8 ≤ length data)%nat.
Proof.
  unfold CloseApproach_create. intros H.
  destruct (item data 0) as [x0|] eqn:E0; osimpl H; [|done].
  destruct (item data 3) as [x3|] eqn:E3; osimpl H; [|done].
  destruct (decide (8 ≤ length data)%nat) as [|Hs]; [done|]. exfalso.
  destruct (truthy x3); osimpl H;
    (destruct (item data 4) as [x4|] eqn:E4; osimpl H; [|done]);
    (destruct (truthy x4); osimpl H;
       [destruct (py_float float_of_str x4); osimpl H; [|done] |]);
    rewrite (item_short data 7) in H by lia; osimpl H; done.
Qed.

Lemma CloseApproach_create_shape data c :
  CloseApproach_create float_of_str cd_to_datetime data = Return c →
  ∃ x0 x3 x4 x7 dist vel tm,
    data !! 0 = Some x0 ∧ data !! 3 = Some x3 ∧
    data !! 4 = Some x4 ∧ data !! 7 = Some x7 ∧
    (if truthy x4 then py_float float_of_str x4 = Return dist
     else dist = 0%float) ∧
    (if truthy x7 then py_float float_of_str x7 = Return vel
     else vel = 0%float) ∧
    (if truthy x3 then ∃ t, cd_to_datetime (py_str x3) = Return t ∧ tm = Some t
     else tm = None) ∧
    c = {| _designation := py_str x0; time := tm; distance := dist;
           velocity := vel; neo := None |}.
Proof.
  intros H. pose proof (CloseApproach_create_long data c H) as Hl.
  destruct (lookup_lt_is_Some_2 data 0) as [x0 E0]; [lia|].
  destruct (lookup_lt_is_Some_2 data 3) as [x3 E3]; [lia|].
  destruct (lookup_lt_is_Some_2 data 4) as [x4 E4]; [lia|].
  destruct (lookup_lt_is_Some_2 data 7) as [x7 E7]; [lia|].
  rewrite (CloseApproach_create_eq data x0 x3 x4 x7) in H by done.
  assert (∃ dist vel tm,
    (if truthy x4 then py_float float_of_str x4 = Return dist
     else dist = 0%float) ∧
    (if truthy x7 then py_float float_of_str x7 = Return vel
     else vel = 0%float) ∧
    (if truthy x3 then ∃ t, cd_to_datetime (py_str x3) = Return t ∧ tm = Some t
     else tm = None) ∧
    c = {| _designation := py_str x0; time := tm; distance := dist;
           velocity := vel; neo := None |}) as (dist & vel & tm & H4 & H7 & H3 & ->).
  { assert (∃ dist, (if truthy x4 then py_float float_of_str x4 = Return dist
                     else dist = 0%float) ∧
              (if truthy x7 then py_float float_of_str x7 else Return 0%float)
                ≫= (λ vel, CloseApproach_init cd_to_datetime (py_str x0)
                     (if truthy x3 then Some (py_str x3) else None) dist vel)
              = Return c) as (dist & H4 & H').
    { destruct (truthy x4).
      - destruct (py_float float_of_str x4) as [d|]; osimpl H; [|done].
        by exists d.
      - osimpl H. by eexists. }
    assert (∃ vel, (if truthy x7 then py_float float_of_str x7 = Return vel
                    else vel = 0%float) ∧
              CloseApproach_init cd_to_datetime (py_str x0)
                (if truthy x3 then Some (py_str x3) else None) dist vel
              = Return c) as (vel & H7 & H'').
    { destruct (truthy x7).
      - destruct (py_float float_of_str x7) as [d|]; osimpl H'; [|done].
        by exists d.
      - osimpl H'. by eexists. }
    exists dist, vel. unfold CloseApproach_init in H''.
    destruct (truthy x3) eqn:T3.
    - destruct x3 as [s|]; [|done]. cbn [py_str] in *. rewrite T3 in H''.
      destruct (cd_to_datetime s) as [t|]; osimpl H''; [|done].
      injection H'' as <-. exists (Some t). split_and!; [done..| |done].
      by exists t.
    - cbn [truthy] in H''. osimpl H''. injection H'' as <-.
      by exists None. }
  by exists x0, x3, x4, x7, dist, vel, tm.
Qed.

(** What [CloseApproach.create] returns, when it returns: the record has
    at least 8 fields; the new approach has no NEO yet; its designation is
    field 0; its time is [None] when field 3 is empty and what
    [cd_to_datetime] makes of field 3 otherwise; its distance and velocity
    are [0.0] when fields 4 and 7 are empty and what [float] makes of them
    otherwise. *)
Theorem CloseApproach_create_returns data c :
  CloseApproach_create float_of_str cd_to_datetime data = Return c →
  (8 ≤ length data)%nat ∧
  neo c = None ∧
  (∃ x0, data !! 0 = Some x0 ∧ _designation c = py_str x0) ∧
  (∃ x3, data !! 3 = Some x3 ∧
     if truthy x3
     then ∃ t, cd_to_datetime (py_str x3) = Return t ∧ time c = Some t
     else time c = None) ∧
  (∃ x4, data !! 4 = Some x4 ∧
     if truthy x4 then py_float float_of_str x4 = Return (distance c)
     else distance c = 0%float) ∧
  (∃ x7, data !! 7 = Some x7 ∧
     if truthy x7 then py_float float_of_str x7 = Return (velocity c)
     else velocity c = 0%float).
Proof.
  intros H.
  destruct (CloseApproach_create_shape data c H)
    as (x0 & x3 & x4 & x7 & dist & vel & tm
        & E0 & E3 & E4 & E7 & H4 & H7 & H3 & ->).
  cbn [neo _designation time distance velocity].
  split_and!; [|done|by exists x0|by exists x3|by exists x4|by exists x7].
  apply lookup_lt_Some in E7. lia.
Qed.

(** A record of fewer than 8 fields makes [CloseApproach.create] raise, and
    one of at most 4 fields makes it raise [IndexError]. *)
Theorem CloseApproach_create_short data :
  ((length data < 8)%nat →
   ∃ e, CloseApproach_create float_of_str cd_to_datetime data = Raise e) ∧
  ((length data ≤ 4)%nat →
   CloseApproach_create float_of_str cd_to_datetime data = Raise IndexError).
Proof.
  split; intros Hl.
  - destruct (CloseApproach_create _ _ data) as [c|e] eqn:E; [|by exists e].
    apply CloseApproach_create_long in E. lia.
  - unfold CloseApproach_create.
    destruct (decide (length data ≤ 0)%nat) as [H0|H0].
    { by rewrite (item_short data 0 H0). }
    destruct (item_long data 0) as [x0 ->]; [lia|]. osimpl_goal.
    destruct (decide (length data ≤ 3)%nat) as [H3|H3].
    { by rewrite (item_short data 3 H3). }
    destruct (item_long data 3) as [x3 ->]; [lia|]. osimpl_goal.
    rewrite (item_short data 4) by lia.
    destruct (truthy x3); by osimpl_goal.
Qed.

(** What [create] makes meets the precondition of the constructor, but for
    the uniqueness of designations, which is up to the data: in a store
    whose NEOs and approaches come out of [create], no approach has an NEO
    and no NEO has approaches. *)
Theorem created_objects_are_unlinked h ns cas :
  Forall (λ n, ∃ row,
    NearEarthObject_create float_of_str row = Return (get_neo h n)) ns →
  Forall (λ a, ∃ data,
    CloseApproach_create float_of_str cd_to_datetime data
    = Return (get_ca h a)) cas →
  NoDup ((λ n, designation (get_neo h n)) <$> ns) →
  unlinked h ns cas.
Proof.
  intros Hn Ha ND. split_and!; [| |done].
  - eapply Forall_impl; [exact Ha|]. intros a [data Hc].
    by destruct (CloseApproach_create_shape data _ Hc)
      as (? & ? & ? & ? & ? & ? & ? & _ & _ & _ & _ & _ & _ & _ & ->).
  - eapply Forall_impl; [exact Hn|]. intros n [row Hc].
    by destruct (NearEarthObject_create_name row _ Hc) as [? _].
Qed.

(** An NEO made by [create] never has the empty string for a name, so when
    it has a name and is part of the collection, lookup by that name finds
    an NEO of the collection with that name. *)
Theorem created_named_neo_is_found h ns cas m row k :
  NearEarthObject_create float_of_str row = Return (get_neo h m) →
  m ∈ ns →
  name (get_neo h m) = Some k →
  ∃ n, get_neo_by_name (__init__ h ns cas).1 (Some k) = Return (Some n) ∧
       n ∈ ns ∧ name (get_neo h n) = Some k.
Proof.
  clear cd_to_datetime.
  intros Hc Hm Hk.
  destruct (NearEarthObject_create_name row _ Hc)
    as [_ [Hnone|(k' & Hk' & Hne)]]; [congruence|].
  assert (k' = k) as -> by congruence.
  rewrite get_neo_by_name_lookup, init_eq. cbn [fst _name2neo].
  destruct (index_name_lookup_is_Some h ns ∅ (Some k)) as [n Hl].
  { right. exists m. split_and!; [done..|]. by apply truthy_Some. }
  exists n. rewrite Hl. split; [done|].
  apply index_name_lookup_inv in Hl as [Hl|(? & ? & _)]; [|done].
  by rewrite lookup_empty in Hl.
Qed.

End CreateProperties.

(** [create] on the sample records gives the sample objects; a name field
    left empty gives no name, and a row cut short raises. *)
Example create_sample :
  NearEarthObject_create Sample.parse_float Sample.neo_row
    = Return Sample.namesake ∧
  CloseApproach_create Sample.parse_float Sample.parse_time Sample.cad_record
    = Return (Sample.approach "2012 RR") ∧
  (NearEarthObject_create Sample.parse_float
     (<[4 := Some ""]> Sample.neo_row) ≫= λ o, mret (name o)) = Return None ∧
  NearEarthObject_create Sample.parse_float (take 15 Sample.neo_row)
    = Raise IndexError.
Proof. split_and!; by vm_compute. Qed.

Lemma NearEarthObject_create_returns_witness :
  (16 ≤ length Sample.neo_row)%nat ∧
  approaches Sample.namesake = [] ∧
  (∃ x3, Sample.neo_row !! 3 = Some x3 ∧
         designation Sample.namesake = py_str x3) ∧
  (∃ x4, Sample.neo_row !! 4 = Some x4 ∧
         name Sample.namesake = if truthy x4 then Some (py_str x4) else None) ∧
  (name Sample.namesake = None ∨
   ∃ k, name Sample.namesake = Some k ∧ k ≠ "") ∧
  (hazardous Sample.namesake = true ↔ Sample.neo_row !! 7 = Some (Some "Y")) ∧
  (∃ x15, Sample.neo_row !! 15 = Some x15 ∧
          if truthy x15
          then py_float Sample.parse_float x15
               = Return (diameter Sample.namesake)
          else diameter Sample.namesake = nan).
Proof.
  apply (NearEarthObject_create_returns Sample.parse_float Sample.neo_row
           Sample.namesake).
  vm_compute. reflexivity.
Defined.

Lemma CloseApproach_create_returns_witness :
  (8 ≤ length Sample.cad_record)%nat ∧
  neo (Sample.approach "2012 RR") = None ∧
  (∃ x0, Sample.cad_record !! 0 = Some x0 ∧
         _designation (Sample.approach "2012 RR") = py_str x0) ∧
  (∃ x3, Sample.cad_record !! 3 = Some x3 ∧
     if truthy x3
     then ∃ t, Sample.parse_time (py_str x3) = Return t ∧
               time (Sample.approach "2012 RR") = Some t
     else time (Sample.approach "2012 RR") = None) ∧
  (∃ x4, Sample.cad_record !! 4 = Some x4 ∧
     if truthy x4
     then py_float Sample.parse_float x4
          = Return (distance (Sample.approach "2012 RR"))
     else distance (Sample.approach "2012 RR") = 0%float) ∧
  (∃ x7, Sample.cad_record !! 7 = Some x7 ∧
     if truthy x7
     then py_float Sample.parse_float x7
          = Return (velocity (Sample.approach "2012 RR"))
     else velocity (Sample.approach "2012 RR") = 0%float).
Proof.
  apply (CloseApproach_create_returns Sample.parse_float Sample.parse_time
           Sample.cad_record (Sample.approach "2012 RR")).
  vm_compute. reflexivity.
Defined.

Lemma created_objects_are_unlinked_witness :
  unlinked Sample.created [0] [0].
Proof.
  apply (created_objects_are_unlinked Sample.parse_float Sample.parse_time
           Sample.created [0] [0]).
  - repeat constructor. exists Sample.neo_row. vm_compute. reflexivity.
  - repeat constructor. exists Sample.cad_record. vm_compute. reflexivity.
  - compute_done.
Defined.

Lemma created_named_neo_is_found_witness :
  ∃ n, get_neo_by_name (__init__ Sample.created [0] [0]).1 (Some "Apophis")
       = Return (Some n) ∧
       n ∈ [0] ∧ name (get_neo Sample.created n) = Some "Apophis".
Proof.
  apply (created_named_neo_is_found Sample.parse_float Sample.created
           [0] [0] 0 Sample.neo_row "Apophis").
  - vm_compute. reflexivity.
  - compute_done.
  - reflexivity.
Defined.

(** An approach that had no NEO before construction is given an NEO only
    if it belongs to the approach collection, and then an NEO of the NEO
    collection that carries the designation of the approach. *)
Theorem init_links_by_designation h ns cas a n :
  neo (get_ca h a) = None →
  neo (get_ca (__init__ h ns cas).2 a) = Some n →
  n ∈ ns ∧ a ∈ cas ∧
  designation (get_neo (__init__ h ns cas).2 n)
  = _designation (get_ca (__init__ h ns cas).2 a).
Proof.
  rewrite init_eq. cbn [snd]. intros Hnone Hl.
  apply link_all_ca_inv in Hl as [Hl|(? & ? & E)]; [congruence|].
  split_and!; [done..|].
  destruct (same_attributes_link_all cas ns h) as [N C].
  destruct (N n) as (-> & _). by destruct (C a) as (-> & _).
Qed.

Lemma init_links_by_designation_witness :
  0 ∈ [0; 1; 2; 3] ∧ 2 ∈ [0; 1; 2; 3] ∧
  designation (get_neo (__init__ Sample.store [0; 1; 2; 3] [0; 1; 2; 3]).2 0)
  = _designation
      (get_ca (__init__ Sample.store [0; 1; 2; 3] [0; 1; 2; 3]).2 2).
Proof.
  apply (init_links_by_designation Sample.store [0; 1; 2; 3] [0; 1; 2; 3] 2 0).
  - reflexivity.
  - vm_compute. reflexivity.
Defined.
